(** * HeatmapOverlay: a shallow embedding of the overlay renderer

    The component under study is [HeatmapOverlay] (components/HeatmapOverlay.tsx,
    kept as src/unnamed/part_002; line numbers below refer to that file):
    an image-metrics resolver (two paths that store the natural size of the
    image) and a render effect that redraws a 2D canvas in one of three modes.

    Conventions of the embedding.
    - JavaScript numbers are read as exact rationals ([Q]); rounding of IEEE
      doubles is not modelled.  [naturalWidth], [naturalHeight] and the canvas
      size are DOM [unsigned long]s and are kept in [N].
    - Angles are kept as rational multiples of [Math.PI].
    - The canvas bitmap is a display list: the paint calls made since the
      bitmap was last reset, each with the context state it was issued under.
      [pixelAt] interprets a display list with the compositing rules of the
      Canvas 2D API, for an arbitrary rasteriser of shapes.
    - JavaScript arrays live in a heap ([gmap]); [Array.prototype.sort] sorts
      in place, the spread [[...a]] allocates. *)

From Stdlib Require Import QArith Qminmax ZArith List Permutation Sorted Lia Lqa String.
From stdpp Require Import gmap pretty.

Local Open Scope Q_scope.

(** ** Numbers *)

(** An [unsigned long] read as a JavaScript number. *)
Definition num (n : N) : Q := inject_Z (Z.of_N n).

(** ** types.ts *)

Inductive VisualizationMode := heatmap | fogmap | path.

Module Hotspot.
Record t := mk {
  id : Z;
  x : Q;          (* 0-100 percentage *)
  y : Q;          (* 0-100 percentage *)
  intensity : Q;  (* 0-1 *)
  label : option string
}.
End Hotspot.

(** ** The DOM objects the component touches *)

Record HTMLImageElement := {
  complete : bool;
  naturalWidth : N;
  naturalHeight : N
}.

Module Dimensions.
Record t := mk { width : N; height : N }.
End Dimensions.

(** *** Canvas 2D context state *)

Inductive CompositeOp := source_over | screen | destination_out.

(** A CSS colour: channels in 0..255, alpha in 0..1. *)
Record Color := rgba { red : Q; green : Q; blue : Q; alpha : Q }.

(** ['#ec4899'] and ['#ffffff']. *)
Definition pink500 : Color := rgba 236 72 153 1.
Definition white : Color := rgba 255 255 255 1.
Definition black : Color := rgba 0 0 0 1.
Definition transparentBlack : Color := rgba 0 0 0 0.

Record CanvasGradient := {
  x0 : Q; y0 : Q; r0 : Q;
  x1 : Q; y1 : Q; r1 : Q;
  colorStops : list (Q * Color)
}.

Definition createRadialGradient (x0 y0 r0 x1 y1 r1 : Q) : CanvasGradient :=
  {| x0 := x0; y0 := y0; r0 := r0; x1 := x1; y1 := y1; r1 := r1;
     colorStops := [] |}.

Definition addColorStop (offset : Q) (c : Color) (g : CanvasGradient) : CanvasGradient :=
  {| x0 := x0 g; y0 := y0 g; r0 := r0 g; x1 := x1 g; y1 := y1 g; r1 := r1 g;
     colorStops := colorStops g ++ [(offset, c)] |}.

Inductive Style := Solid (c : Color) | Gradient (g : CanvasGradient).

(** Path segments; the two angles of [Arc] are in units of [Math.PI]. *)
Inductive PathCmd :=
| MoveTo (x y : Q)
| LineTo (x y : Q)
| Arc (x y radius startAngle endAngle : Q)
| ClosePath.

Inductive TextAlign := align_start | align_center.
Inductive TextBaseline := baseline_alphabetic | baseline_middle.

Record Font := { bold : bool; sizePx : Q; family : string }.

Record Context2D := {
  globalCompositeOperation : CompositeOp;
  fillStyle : Style;
  strokeStyle : Style;
  lineWidth : Q;
  lineDash : list Q;
  shadowColor : Color;
  shadowBlur : Q;
  font : Font;
  textAlign : TextAlign;
  textBaseline : TextBaseline;
  currentPath : list PathCmd
}.

(** The state of a freshly reset context. *)
Definition defaultContext : Context2D := {|
  globalCompositeOperation := source_over;
  fillStyle := Solid black;
  strokeStyle := Solid black;
  lineWidth := 1;
  lineDash := [];
  shadowColor := transparentBlack;
  shadowBlur := 0;
  font := {| bold := false; sizePx := 10; family := "sans-serif" |};
  textAlign := align_start;
  textBaseline := baseline_alphabetic;
  currentPath := []
|}.

(** *** The bitmap as a display list

    Each entry records a paint call with the context attributes that call
    reads: the compositing operator and the shadow for all of them, the fill
    or stroke style, and the line or text attributes where they apply. *)

Definition Shadow : Type := Color * Q.   (* shadowColor, shadowBlur *)

Inductive DrawOp :=
| ClearRect (x y w h : Q)
| FillRect (x y w h : Q) (op : CompositeOp) (style : Style) (shadow : Shadow)
| Fill (p : list PathCmd) (op : CompositeOp) (style : Style) (shadow : Shadow)
| Stroke (p : list PathCmd) (op : CompositeOp) (style : Style)
         (width : Q) (dash : list Q) (shadow : Shadow)
| FillText (text : string) (x y : Q) (op : CompositeOp) (style : Style)
           (f : Font) (align : TextAlign) (baseline : TextBaseline) (shadow : Shadow).

(** Which kind of context the canvas has handed out so far. *)
Inductive ContextMode := ctx_none | ctx_2d | ctx_other.

Module Canvas.
Record t := mk {
  width : N;
  height : N;
  contextMode : ContextMode;
  ctx : Context2D;
  bitmap : list DrawOp
}.
End Canvas.

(** Statements that run against the canvas. *)
Definition Cmd := Canvas.t -> Canvas.t.

Definition seq (c1 c2 : Cmd) : Cmd := fun cv => c2 (c1 cv).
Notation "c1 >>> c2" := (seq c1 c2) (at level 62, right associativity).

Definition skip : Cmd := fun cv => cv.

(** [if (b) { c }] *)
Definition when (b : bool) (c : Cmd) : Cmd := if b then c else skip.

(** [arr.forEach(spot => body)] and [arr.forEach((spot, idx) => body)]. *)
Definition forEach {A} (body : A -> Cmd) (arr : list A) : Cmd :=
  fun cv => fold_left (fun cv a => body a cv) arr cv.

Fixpoint forEachFrom {A} (idx : nat) (body : A -> nat -> Cmd) (arr : list A) : Cmd :=
  match arr with
  | [] => skip
  | a :: arr' => body a idx >>> forEachFrom (S idx) body arr'
  end.

Definition forEachIdx {A} (body : A -> nat -> Cmd) (arr : list A) : Cmd :=
  forEachFrom 0 body arr.

(** A statement that only touches the context state. *)
Definition onCtx (f : Context2D -> Context2D) : Cmd := fun cv =>
  Canvas.mk (Canvas.width cv) (Canvas.height cv) (Canvas.contextMode cv)
            (f (Canvas.ctx cv)) (Canvas.bitmap cv).

(** A paint call: the display list grows by one entry. *)
Definition emit (op : Context2D -> DrawOp) : Cmd := fun cv =>
  Canvas.mk (Canvas.width cv) (Canvas.height cv) (Canvas.contextMode cv)
            (Canvas.ctx cv) (Canvas.bitmap cv ++ [op (Canvas.ctx cv)]).

(** Functional updates of the context state, one per attribute. *)
Definition with_globalCompositeOperation (v : CompositeOp) (s : Context2D) : Context2D :=
  {| globalCompositeOperation := v; fillStyle := fillStyle s;
     strokeStyle := strokeStyle s; lineWidth := lineWidth s; lineDash := lineDash s;
     shadowColor := shadowColor s; shadowBlur := shadowBlur s; font := font s;
     textAlign := textAlign s; textBaseline := textBaseline s;
     currentPath := currentPath s |}.

Definition with_fillStyle (v : Style) (s : Context2D) : Context2D :=
  {| globalCompositeOperation := globalCompositeOperation s; fillStyle := v;
     strokeStyle := strokeStyle s; lineWidth := lineWidth s; lineDash := lineDash s;
     shadowColor := shadowColor s; shadowBlur := shadowBlur s; font := font s;
     textAlign := textAlign s; textBaseline := textBaseline s;
     currentPath := currentPath s |}.

Definition with_strokeStyle (v : Style) (s : Context2D) : Context2D :=
  {| globalCompositeOperation := globalCompositeOperation s; fillStyle := fillStyle s;
     strokeStyle := v; lineWidth := lineWidth s; lineDash := lineDash s;
     shadowColor := shadowColor s; shadowBlur := shadowBlur s; font := font s;
     textAlign := textAlign s; textBaseline := textBaseline s;
     currentPath := currentPath s |}.

Definition with_lineWidth (v : Q) (s : Context2D) : Context2D :=
  {| globalCompositeOperation := globalCompositeOperation s; fillStyle := fillStyle s;
     strokeStyle := strokeStyle s; lineWidth := v; lineDash := lineDash s;
     shadowColor := shadowColor s; shadowBlur := shadowBlur s; font := font s;
     textAlign := textAlign s; textBaseline := textBaseline s;
     currentPath := currentPath s |}.

Definition with_lineDash (v : list Q) (s : Context2D) : Context2D :=
  {| globalCompositeOperation := globalCompositeOperation s; fillStyle := fillStyle s;
     strokeStyle := strokeStyle s; lineWidth := lineWidth s; lineDash := v;
     shadowColor := shadowColor s; shadowBlur := shadowBlur s; font := font s;
     textAlign := textAlign s; textBaseline := textBaseline s;
     currentPath := currentPath s |}.

Definition with_shadowColor (v : Color) (s : Context2D) : Context2D :=
  {| globalCompositeOperation := globalCompositeOperation s; fillStyle := fillStyle s;
     strokeStyle := strokeStyle s; lineWidth := lineWidth s; lineDash := lineDash s;
     shadowColor := v; shadowBlur := shadowBlur s; font := font s;
     textAlign := textAlign s; textBaseline := textBaseline s;
     currentPath := currentPath s |}.

Definition with_shadowBlur (v : Q) (s : Context2D) : Context2D :=
  {| globalCompositeOperation := globalCompositeOperation s; fillStyle := fillStyle s;
     strokeStyle := strokeStyle s; lineWidth := lineWidth s; lineDash := lineDash s;
     shadowColor := shadowColor s; shadowBlur := v; font := font s;
     textAlign := textAlign s; textBaseline := textBaseline s;
     currentPath := currentPath s |}.

Definition with_font (v : Font) (s : Context2D) : Context2D :=
  {| globalCompositeOperation := globalCompositeOperation s; fillStyle := fillStyle s;
     strokeStyle := strokeStyle s; lineWidth := lineWidth s; lineDash := lineDash s;
     shadowColor := shadowColor s; shadowBlur := shadowBlur s; font := v;
     textAlign := textAlign s; textBaseline := textBaseline s;
     currentPath := currentPath s |}.

Definition with_textAlign (v : TextAlign) (s : Context2D) : Context2D :=
  {| globalCompositeOperation := globalCompositeOperation s; fillStyle := fillStyle s;
     strokeStyle := strokeStyle s; lineWidth := lineWidth s; lineDash := lineDash s;
     shadowColor := shadowColor s; shadowBlur := shadowBlur s; font := font s;
     textAlign := v; textBaseline := textBaseline s; currentPath := currentPath s |}.

Definition with_textBaseline (v : TextBaseline) (s : Context2D) : Context2D :=
  {| globalCompositeOperation := globalCompositeOperation s; fillStyle := fillStyle s;
     strokeStyle := strokeStyle s; lineWidth := lineWidth s; lineDash := lineDash s;
     shadowColor := shadowColor s; shadowBlur := shadowBlur s; font := font s;
     textAlign := textAlign s; textBaseline := v; currentPath := currentPath s |}.

Definition with_currentPath (v : list PathCmd) (s : Context2D) : Context2D :=
  {| globalCompositeOperation := globalCompositeOperation s; fillStyle := fillStyle s;
     strokeStyle := strokeStyle s; lineWidth := lineWidth s; lineDash := lineDash s;
     shadowColor := shadowColor s; shadowBlur := shadowBlur s; font := font s;
     textAlign := textAlign s; textBaseline := textBaseline s; currentPath := v |}.

(** Assignments to context attributes. *)
Definition set_globalCompositeOperation (v : CompositeOp) : Cmd :=
  onCtx (with_globalCompositeOperation v).
Definition set_fillStyle (v : Style) : Cmd := onCtx (with_fillStyle v).
Definition set_strokeStyle (v : Style) : Cmd := onCtx (with_strokeStyle v).
Definition set_lineWidth (v : Q) : Cmd := onCtx (with_lineWidth v).
Definition setLineDash (v : list Q) : Cmd := onCtx (with_lineDash v).
Definition set_shadowColor (v : Color) : Cmd := onCtx (with_shadowColor v).
Definition set_shadowBlur (v : Q) : Cmd := onCtx (with_shadowBlur v).
Definition set_font (v : Font) : Cmd := onCtx (with_font v).
Definition set_textAlign (v : TextAlign) : Cmd := onCtx (with_textAlign v).
Definition set_textBaseline (v : TextBaseline) : Cmd := onCtx (with_textBaseline v).

(** Path building: each call extends the current path. *)
Definition extendPath (c : PathCmd) : Cmd :=
  onCtx (fun s => with_currentPath (currentPath s ++ [c]) s).

Definition beginPath : Cmd := onCtx (with_currentPath []).
Definition moveTo (x y : Q) : Cmd := extendPath (MoveTo x y).
Definition lineTo (x y : Q) : Cmd := extendPath (LineTo x y).
Definition arc (x y radius startAngle endAngle : Q) : Cmd :=
  extendPath (Arc x y radius startAngle endAngle).

(** Painting. *)
Definition shadowOf (s : Context2D) : Shadow := (shadowColor s, shadowBlur s).

Definition fill : Cmd := emit (fun s =>
  Fill (currentPath s) (globalCompositeOperation s) (fillStyle s) (shadowOf s)).
Definition stroke : Cmd := emit (fun s =>
  Stroke (currentPath s) (globalCompositeOperation s) (strokeStyle s)
         (lineWidth s) (lineDash s) (shadowOf s)).
Definition fillRect (x y w h : Q) : Cmd := emit (fun s =>
  FillRect x y w h (globalCompositeOperation s) (fillStyle s) (shadowOf s)).
Definition fillText (text : string) (x y : Q) : Cmd := emit (fun s =>
  FillText text x y (globalCompositeOperation s) (fillStyle s)
           (font s) (textAlign s) (textBaseline s) (shadowOf s)).
Definition clearRect (x y w h : Q) : Cmd := emit (fun _ => ClearRect x y w h).

(** [canvas.width = v] and [canvas.height = v]: setting either attribute
    resets the context to its default state and empties the bitmap. *)
Definition set_width (v : N) : Cmd := fun cv =>
  Canvas.mk v (Canvas.height cv) (Canvas.contextMode cv) defaultContext [].
Definition set_height (v : N) : Cmd := fun cv =>
  Canvas.mk (Canvas.width cv) v (Canvas.contextMode cv) defaultContext [].

(** [canvas.getContext('2d')]: [null] when the canvas already serves another
    kind of context. *)
Definition getContext2d (cv : Canvas.t) : option Canvas.t :=
  match Canvas.contextMode cv with
  | ctx_other => None
  | _ => Some (Canvas.mk (Canvas.width cv) (Canvas.height cv) ctx_2d
                         (Canvas.ctx cv) (Canvas.bitmap cv))
  end.

(** ** JavaScript arrays *)

Abbreviation loc := positive.
Abbreviation Heap := (gmap positive (list Hotspot.t)).

(** [Array.prototype.sort(compareFn)]: a stable sort; [compareFn a b] is
    negative when [a] goes first. *)
Fixpoint insertBy {A} (compareFn : A -> A -> Z) (a : A) (l : list A) : list A :=
  match l with
  | [] => [a]
  | b :: l' =>
      if (compareFn a b <=? 0)%Z then a :: b :: l'
      else b :: insertBy compareFn a l'
  end.

Definition sortBy {A} (compareFn : A -> A -> Z) (l : list A) : list A :=
  fold_right (insertBy compareFn) [] l.

(** [[...arr]]: a new array with the same elements. *)
Definition arraySpread (arr : list Hotspot.t) (h : Heap) : loc * Heap :=
  let r := fresh (dom h) in (r, <[r := arr]> h).

(** [r.sort(compareFn)]: sorts the array at [r] in place. *)
Definition arraySort (compareFn : Hotspot.t -> Hotspot.t -> Z) (r : loc) (h : Heap) : Heap :=
  match h !! r with
  | Some arr => <[r := sortBy compareFn arr]> h
  | None => h
  end.

(** ** components/HeatmapOverlay.tsx *)

Record Props := {
  imageSrc : string;
  hotspots : option loc;    (* [None]: null or undefined *)
  mode : VisualizationMode
}.

Record World := {
  heap : Heap;
  canvasRef : option Canvas.t
}.

Definition mode_eqb (m1 m2 : VisualizationMode) : bool :=
  match m1, m2 with
  | heatmap, heatmap | fogmap, fogmap | path, path => true
  | _, _ => false
  end.

Definition Math_PI : Q := 1.

(** *** Image metrics resolver *)

(** [onImageLoad], lines 16-21. *)
Definition onImageLoad (currentTarget : HTMLImageElement)
    (dimensions : option Dimensions.t) : option Dimensions.t :=
  if (0 <? naturalWidth currentTarget)%N && (0 <? naturalHeight currentTarget)%N
  then Some (Dimensions.mk (naturalWidth currentTarget) (naturalHeight currentTarget))
  else dimensions.

(** The effect for images decoded before the component looks, lines 24-31. *)
Definition cachedImageEffect (imgRef : option HTMLImageElement)
    (dimensions : option Dimensions.t) : option Dimensions.t :=
  match imgRef with
  | Some img =>
      if complete img && (0 <? naturalWidth img)%N
      then Some (Dimensions.mk (naturalWidth img) (naturalHeight img))
      else dimensions
  | None => dimensions
  end.

(** *** Overlay rasteriser *)

(** [(a, b) => a.id - b.id] *)
Definition compareById (a b : Hotspot.t) : Z := (Hotspot.id a - Hotspot.id b)%Z.

(** The heatmap block, lines 55-77. *)
Definition renderHeatmap (sortedHotspots : list Hotspot.t) : Cmd :=
  forEach (fun spot canvas =>
    let x := (Hotspot.x spot / 100) * num (Canvas.width canvas) in
    let y := (Hotspot.y spot / 100) * num (Canvas.height canvas) in
    let radius := Qmin (num (Canvas.width canvas)) (num (Canvas.height canvas)) * 0.12 in
    let gradient := createRadialGradient x y 0 x y radius in
    let alpha := Qmax 0.3 (Qmin 0.9 (Hotspot.intensity spot)) in
    let gradient := addColorStop 0 (rgba 255 0 0 alpha) gradient in
    let gradient := addColorStop 0.4 (rgba 255 165 0 (alpha * 0.8)) gradient in
    let gradient := addColorStop 0.7 (rgba 255 255 0 (alpha * 0.5)) gradient in
    let gradient := addColorStop 1 (rgba 255 255 255 0) gradient in
    (set_globalCompositeOperation screen >>>
     set_fillStyle (Gradient gradient) >>>
     beginPath >>>
     arc x y radius 0 (2 * Math_PI) >>>
     fill) canvas) sortedHotspots >>>
  set_globalCompositeOperation source_over.

(** The fog-map block, lines 82-106. *)
Definition renderFogmap (sortedHotspots : list Hotspot.t) : Cmd :=
  set_fillStyle (Solid (rgba 15 23 42 0.92)) >>>
  (fun canvas => fillRect 0 0 (num (Canvas.width canvas)) (num (Canvas.height canvas)) canvas) >>>
  set_globalCompositeOperation destination_out >>>
  forEach (fun spot canvas =>
    let x := (Hotspot.x spot / 100) * num (Canvas.width canvas) in
    let y := (Hotspot.y spot / 100) * num (Canvas.height canvas) in
    let radius := Qmin (num (Canvas.width canvas)) (num (Canvas.height canvas)) * 0.14 in
    let gradient := createRadialGradient x y 0 x y radius in
    let gradient := addColorStop 0 (rgba 0 0 0 1) gradient in
    let gradient := addColorStop 0.5 (rgba 0 0 0 0.5) gradient in
    let gradient := addColorStop 1 (rgba 0 0 0 0) gradient in
    (set_fillStyle (Gradient gradient) >>>
     beginPath >>>
     arc x y radius 0 (2 * Math_PI) >>>
     fill) canvas) sortedHotspots >>>
  set_globalCompositeOperation source_over.

(** The path block, lines 111-156. *)
Definition renderPath (sortedHotspots : list Hotspot.t) : Cmd :=
  set_strokeStyle (Solid (rgba 236 72 153 0.8)) >>>
  (fun canvas => set_lineWidth (Qmax 2 (num (Canvas.width canvas) * 0.003)) canvas) >>>
  setLineDash [15; 10] >>>
  beginPath >>>
  forEachIdx (fun spot idx canvas =>
    let x := (Hotspot.x spot / 100) * num (Canvas.width canvas) in
    let y := (Hotspot.y spot / 100) * num (Canvas.height canvas) in
    (if (idx =? 0)%nat then moveTo x y else lineTo x y) canvas) sortedHotspots >>>
  stroke >>>
  setLineDash [] >>>
  forEach (fun spot canvas =>
    let x := (Hotspot.x spot / 100) * num (Canvas.width canvas) in
    let y := (Hotspot.y spot / 100) * num (Canvas.height canvas) in
    let circleRadius := Qmax 12 (num (Canvas.width canvas) * 0.015) in
    (set_shadowColor (rgba 0 0 0 0.5) >>>
     set_shadowBlur 10 >>>
     set_fillStyle (Solid (if (Hotspot.id spot =? 1)%Z then pink500 else white)) >>>
     beginPath >>>
     arc x y circleRadius 0 (2 * Math_PI) >>>
     fill >>>
     set_shadowBlur 0 >>>
     set_strokeStyle (Solid pink500) >>>
     set_lineWidth 3 >>>
     stroke >>>
     set_fillStyle (Solid (if (Hotspot.id spot =? 1)%Z then white else pink500)) >>>
     set_font {| bold := true; sizePx := Qmax 12 circleRadius;
                 family := "Inter, sans-serif" |} >>>
     set_textAlign align_center >>>
     set_textBaseline baseline_middle >>>
     fillText (pretty (Hotspot.id spot)) x (y + 2)) canvas) sortedHotspots.

(** Lines 40-45: resize to the natural resolution, then clear. *)
Definition resetCanvas (dimensions : Dimensions.t) : Cmd :=
  set_width (Dimensions.width dimensions) >>>
  set_height (Dimensions.height dimensions) >>>
  (fun canvas => clearRect 0 0 (num (Canvas.width canvas)) (num (Canvas.height canvas)) canvas).

(** Lines 55-156: the three mode blocks, each behind its own test. *)
Definition drawMode (mode : VisualizationMode) (sortedHotspots : list Hotspot.t) : Cmd :=
  when (mode_eqb mode heatmap) (renderHeatmap sortedHotspots) >>>
  when (mode_eqb mode fogmap) (renderFogmap sortedHotspots) >>>
  when (mode_eqb mode path) (renderPath sortedHotspots).

(** The render effect, lines 33-158. *)
Definition renderEffect (props : Props) (dimensions : option Dimensions.t)
    (w : World) : World :=
  match canvasRef w, dimensions with
  | Some canvas, Some dimensions =>
      match getContext2d canvas with
      | None => w
      | Some canvas =>
          let canvas := resetCanvas dimensions canvas in
          match hotspots props ≫= (fun r => heap w !! r) with
          | None => {| heap := heap w; canvasRef := Some canvas |}
          | Some arr =>
              if (length arr =? 0)%nat
              then {| heap := heap w; canvasRef := Some canvas |}
              else
                let '(sortedRef, h) := arraySpread arr (heap w) in
                let h := arraySort compareById sortedRef h in
                let sortedHotspots := default [] (h !! sortedRef) in
                {| heap := h;
                   canvasRef := Some (drawMode (mode props) sortedHotspots canvas) |}
          end
      end
  | _, _ => w
  end.

(** ** Pixels

    What a display list looks like, pixel by pixel.  A pixel holds
    premultiplied channels in 0..1.  [shade op p] is the premultiplied source
    colour a paint call contributes at pixel [p] (coverage of the shape times
    its paint, shadow included); it is left to the rasteriser.  The three
    compositing operators the component selects act channel by channel. *)

Record Pixel := px { pr : Q; pg : Q; pb : Q; pa : Q }.

Definition transparent : Pixel := px 0 0 0 0.

Definition pixel_eq (p q : Pixel) : Prop :=
  pr p == pr q /\ pg p == pg q /\ pb p == pb q /\ pa p == pa q.

Definition channelwise (f : Q -> Q -> Q) (src dst : Pixel) : Pixel :=
  px (f (pr src) (pr dst)) (f (pg src) (pg dst)) (f (pb src) (pb dst)) (f (pa src) (pa dst)).

Definition composite (op : CompositeOp) (src dst : Pixel) : Pixel :=
  match op with
  | source_over => channelwise (fun s d => s + d * (1 - pa src)) src dst
  | screen => channelwise (fun s d => s + d - s * d) src dst
  | destination_out => channelwise (fun _ d => d * (1 - pa src)) src dst
  end.

(** The pixel square [p, p+1] lies inside the rectangle. *)
Definition covers (x y w h : Q) (p : Z * Z) : bool :=
  Qle_bool x (inject_Z (fst p)) && Qle_bool (inject_Z (fst p) + 1) (x + w) &&
  Qle_bool y (inject_Z (snd p)) && Qle_bool (inject_Z (snd p) + 1) (y + h).

Definition paint (shade : DrawOp -> Z * Z -> Pixel) (p : Z * Z) (dst : Pixel)
    (d : DrawOp) : Pixel :=
  match d with
  | ClearRect x y w h => if covers x y w h p then transparent else dst
  | FillRect _ _ _ _ op _ _ | Fill _ op _ _ | Stroke _ op _ _ _ _
  | FillText _ _ _ op _ _ _ _ _ => composite op (shade d p) dst
  end.

Definition pixelAt (shade : DrawOp -> Z * Z -> Pixel) (bitmap : list DrawOp)
    (p : Z * Z) : Pixel :=
  fold_left (paint shade p) bitmap transparent.

(** A pixel of the canvas. *)
Definition onCanvas (cv : Canvas.t) (p : Z * Z) : Prop :=
  (0 <= fst p < Z.of_N (Canvas.width cv))%Z /\ (0 <= snd p < Z.of_N (Canvas.height cv))%Z.

(** ** Reading a display list *)

(** What is on the canvas of a world (nothing when there is no canvas). *)
Definition surface (w : World) : list DrawOp :=
  from_option Canvas.bitmap [] (canvasRef w).

(** A canvas right after [resetCanvas]. *)
Definition blank (d : Dimensions.t) : Canvas.t :=
  Canvas.mk (Dimensions.width d) (Dimensions.height d) ctx_2d defaultContext
            [ClearRect 0 0 (num (Dimensions.width d)) (num (Dimensions.height d))].

(** The point a path segment is placed at: end point, or centre of an arc. *)
Definition vertex (c : PathCmd) : list (Q * Q) :=
  match c with
  | MoveTo x y | LineTo x y | Arc x y _ _ _ => [(x, y)]
  | ClosePath => []
  end.

(** The positions a paint call is placed at. *)
Definition anchors (d : DrawOp) : list (Q * Q) :=
  match d with
  | Fill p _ _ _ | Stroke p _ _ _ _ _ => flat_map vertex p
  | FillText _ x y _ _ _ _ _ _ => [(x, y)]
  | ClearRect _ _ _ _ | FillRect _ _ _ _ _ _ _ => []
  end.

(** The two circle centres of the gradient a call paints with. *)
Definition gradientCentres (d : DrawOp) : list (Q * Q) :=
  match d with
  | Fill _ _ (Gradient g) _ => [(x0 g, y0 g); (x1 g, y1 g)]
  | _ => []
  end.

Definition compositeOf (d : DrawOp) : option CompositeOp :=
  match d with
  | ClearRect _ _ _ _ => None
  | FillRect _ _ _ _ op _ _ | Fill _ op _ _ | Stroke _ op _ _ _ _
  | FillText _ _ _ op _ _ _ _ _ => Some op
  end.

(** Filled arcs painted with a gradient: arc radius and gradient. *)
Definition radialFills (bm : list DrawOp) : list (Q * CanvasGradient) :=
  flat_map (fun d => match d with
                     | Fill [Arc _ _ r _ _] _ (Gradient g) _ => [(r, g)]
                     | _ => []
                     end) bm.

(** Paths stroked with a dash pattern. *)
Definition dashedStrokes (bm : list DrawOp) : list (list PathCmd) :=
  flat_map (fun d => match d with
                     | Stroke p _ _ _ (_ :: _) _ => [p]
                     | _ => []
                     end) bm.

Definition isLineTo (c : PathCmd) : bool :=
  match c with LineTo _ _ => true | _ => false end.

(** Number of straight segments of a path. *)
Definition segments (p : list PathCmd) : nat := length (List.filter isLineTo p).

(** Fill colour of each plainly filled path, in drawing order. *)
Definition markerFills (bm : list DrawOp) : list Color :=
  flat_map (fun d => match d with
                     | Fill _ _ (Solid c) _ => [c]
                     | _ => []
                     end) bm.

(** Text and colour of each label, in drawing order. *)
Definition markerLabels (bm : list DrawOp) : list (string * Color) :=
  flat_map (fun d => match d with
                     | FillText t _ _ _ (Solid c) _ _ _ _ => [(t, c)]
                     | _ => []
                     end) bm.

(** ** The specification's vocabulary *)

(** pixel_x = (x/100) × surface_width, pixel_y = (y/100) × surface_height. *)
Definition pixelOf (d : Dimensions.t) (spot : Hotspot.t) : Q * Q :=
  ((Hotspot.x spot / 100) * num (Dimensions.width d),
   (Hotspot.y spot / 100) * num (Dimensions.height d)).

(** [v] clamped to the interval [lo, hi]. *)
Definition clamp (lo hi v : Q) : Q :=
  if Qlt_le_dec v lo then lo else if Qlt_le_dec hi v then hi else v.

(** The two looks of a path marker: (fill colour, number colour). *)
Inductive MarkerStyle := inverted | standard.

Definition markerColors (s : MarkerStyle) : Color * Color :=
  match s with
  | inverted => (pink500, white)
  | standard => (white, pink500)
  end.

(** The gradient stops of a heat spot whose centre alpha is [a]. *)
Definition heatStops (a : Q) : list (Q * Color) :=
  [(0, rgba 255 0 0 a); (0.4, rgba 255 165 0 (a * 0.8));
   (0.7, rgba 255 255 0 (a * 0.5)); (1, rgba 255 255 255 0)].

(** The display-list entries the three loops add for one point. *)
Definition heatSpot (d : Dimensions.t) (spot : Hotspot.t) : DrawOp :=
  let '(x, y) := pixelOf d spot in
  let radius := Qmin (num (Dimensions.width d)) (num (Dimensions.height d)) * 0.12 in
  Fill [Arc x y radius 0 (2 * Math_PI)] screen
       (Gradient {| x0 := x; y0 := y; r0 := 0; x1 := x; y1 := y; r1 := radius;
                    colorStops := heatStops (Qmax 0.3 (Qmin 0.9 (Hotspot.intensity spot))) |})
       (transparentBlack, 0).

Definition fogHole (d : Dimensions.t) (spot : Hotspot.t) : DrawOp :=
  let '(x, y) := pixelOf d spot in
  let radius := Qmin (num (Dimensions.width d)) (num (Dimensions.height d)) * 0.14 in
  Fill [Arc x y radius 0 (2 * Math_PI)] destination_out
       (Gradient {| x0 := x; y0 := y; r0 := 0; x1 := x; y1 := y; r1 := radius;
                    colorStops := [(0, rgba 0 0 0 1); (0.5, rgba 0 0 0 0.5);
                                   (1, rgba 0 0 0 0)] |})
       (transparentBlack, 0).

Definition fogFill (d : Dimensions.t) : DrawOp :=
  FillRect 0 0 (num (Dimensions.width d)) (num (Dimensions.height d)) source_over
           (Solid (rgba 15 23 42 0.92)) (transparentBlack, 0).

Definition polyline (d : Dimensions.t) (sorted : list Hotspot.t) : list PathCmd :=
  match sorted with
  | [] => []
  | s :: rest =>
      MoveTo (fst (pixelOf d s)) (snd (pixelOf d s))
      :: map (fun s => LineTo (fst (pixelOf d s)) (snd (pixelOf d s))) rest
  end.

Definition pathLine (d : Dimensions.t) (sorted : list Hotspot.t) : DrawOp :=
  Stroke (polyline d sorted) source_over (Solid (rgba 236 72 153 0.8))
         (Qmax 2 (num (Dimensions.width d) * 0.003)) [15; 10] (transparentBlack, 0).

Definition pathMarker (d : Dimensions.t) (spot : Hotspot.t) : list DrawOp :=
  let '(x, y) := pixelOf d spot in
  let circleRadius := Qmax 12 (num (Dimensions.width d) * 0.015) in
  let '(fillColor, textColor) :=
    markerColors (if (Hotspot.id spot =? 1)%Z then inverted else standard) in
  [ Fill [Arc x y circleRadius 0 (2 * Math_PI)] source_over (Solid fillColor)
         (rgba 0 0 0 0.5, 10);
    Stroke [Arc x y circleRadius 0 (2 * Math_PI)] source_over (Solid pink500) 3 []
           (rgba 0 0 0 0.5, 0);
    FillText (pretty (Hotspot.id spot)) x (y + 2) source_over (Solid textColor)
             {| bold := true; sizePx := Qmax 12 circleRadius;
                family := "Inter, sans-serif" |}
             align_center baseline_middle (rgba 0 0 0 0.5, 0) ].

(** Ascending and strictly ascending [id]. *)
Definition idLe (a b : Hotspot.t) : Prop := (Hotspot.id a <= Hotspot.id b)%Z.

(** What a mode adds to the display list for the sorted points. *)
Definition modeOps (d : Dimensions.t) (m : VisualizationMode)
    (sorted : list Hotspot.t) : list DrawOp :=
  match m with
  | heatmap => map (heatSpot d) sorted
  | fogmap => fogFill d :: map (fogHole d) sorted
  | path => pathLine d sorted :: flat_map (pathMarker d) sorted
  end.

(** The canvas a render leaves for the array contents [arr]. *)
Definition rendered (d : Dimensions.t) (m : VisualizationMode)
    (arr : list Hotspot.t) : Canvas.t :=
  match arr with
  | [] => blank d
  | _ :: _ => drawMode m (sortBy compareById arr) (blank d)
  end.

(** Stored metrics, when there are any, have two positive sides. *)
Definition positiveMetrics (dimensions : option Dimensions.t) : Prop :=
  match dimensions with
  | Some d => (0 < Dimensions.width d)%N /\ (0 < Dimensions.height d)%N
  | None => True
  end.

(** [props] with another mode selected. *)
Definition withMode (m : VisualizationMode) (props : Props) : Props :=
  {| imageSrc := imageSrc props; hotspots := hotspots props; mode := m |}.

(** ** A concrete scene

    The two-point set of the specification's scenarios, on a canvas that
    still has its default size, with the array stored at address 1. *)

Definition spotA : Hotspot.t := Hotspot.mk 1 10 10 0.9 None.
Definition spotB : Hotspot.t := Hotspot.mk 2 90 90 0.2 None.

Definition sceneCanvas : Canvas.t := Canvas.mk 300 150 ctx_none defaultContext [].

Definition scene (arr : list Hotspot.t) : World :=
  {| heap := {[ 1%positive := arr ]}; canvasRef := Some sceneCanvas |}.

Definition sceneProps (m : VisualizationMode) : Props :=
  {| imageSrc := "asset.png"; hotspots := Some 1%positive; mode := m |}.

Definition square (side : N) : Dimensions.t := Dimensions.mk side side.

(** A canvas of the resolved size whose context state satisfies [P]. *)
Definition inState (d : Dimensions.t) (P : Context2D -> Prop) (cv : Canvas.t) : Prop :=
  Canvas.width cv = Dimensions.width d /\
  Canvas.height cv = Dimensions.height d /\
  P (Canvas.ctx cv).

(** The product of a list of numbers. *)
Definition product (l : list Q) : Q := fold_right Qmult 1 l.

(** The four channels of a pixel. *)
Definition channels : list (Pixel -> Q) := [pr; pg; pb; pa].

(** ** App.tsx: the upload form *)

Inductive AnalysisContext := HERO | APLUS | SEARCH | STOREFRONT | AB_TEST.

Record File := { fileName : string; fileType : string }.

(** A JavaScript array with holes: [None] is an empty slot, which reads as
    [undefined].  [arr[index] = v] fills the slot, growing the array with
    holes when [index] is past its end. *)
Fixpoint arraySet {A} (index : nat) (v : A) (arr : list (option A)) : list (option A) :=
  match index, arr with
  | O, [] => [Some v]
  | O, _ :: rest => Some v :: rest
  | S i, [] => None :: arraySet i v []
  | S i, a :: rest => a :: arraySet i v rest
  end.

(** [arr[index]], [undefined] for a hole and past the end. *)
Definition arrayGet {A} (index : nat) (arr : list (option A)) : option A :=
  mjoin (arr !! index).

(** [arr.filter(Boolean)] on an array of objects: the filled slots. *)
Definition filterBoolean {A} (arr : list (option A)) : list A := omap id arr.

Definition context_eqb (c1 c2 : AnalysisContext) : bool :=
  match c1, c2 with
  | HERO, HERO | APLUS, APLUS | SEARCH, SEARCH | STOREFRONT, STOREFRONT
  | AB_TEST, AB_TEST => true
  | _, _ => false
  end.

(** [const isAB = context === AnalysisContext.AB_TEST], line 77. *)
Definition isAB (context : option AnalysisContext) : bool :=
  match context with
  | Some c => context_eqb c AB_TEST
  | None => false
  end.

(** [handleFileChange], lines 29-45, on the [files] state: [selected] is
    [e.target.files[0]] when the dialog returned a file. *)
Definition handleFileChange (selected : option File) (index : nat)
    (files : list (option File)) : list (option File) :=
  match selected with
  | Some selectedFile => arraySet index selectedFile files
  | None => files
  end.

(** The two guards of [handleAnalyze], lines 48-49, and the arguments it
    then passes to [analyzeImage], line 54; [None] when it returns early. *)
Definition handleAnalyzeCall (files : list (option File))
    (context : option AnalysisContext) : option (list File * AnalysisContext) :=
  match context with
  | None => None
  | Some c =>
      if (length files =? 0)%nat then None
      else if context_eqb c AB_TEST && (length files <? 2)%nat then None
      else Some (filterBoolean files, c)
  end.

(** A value that is not [undefined] or [null]; objects are truthy. *)
Definition defined {A} (o : option A) : bool :=
  match o with Some _ => true | None => false end.

(** [getButtonText], lines 79-88. *)
Definition getButtonText (loading : bool) (files : list (option File))
    (context : option AnalysisContext) : string :=
  if loading then "Analyzing Assets..."
  else
    let missing :=
      if isAB context
      then if negb (defined (arrayGet 0 files)) || negb (defined (arrayGet 1 files))
           then Some "Upload Both Images (A & B)" else None
      else if negb (defined (arrayGet 0 files))
           then Some "Upload an Image First" else None in
    match missing with
    | Some text => text
    | None =>
        if negb (defined context) then "Select Asset Type to Continue"
        else "Run Auto-Analysis"
    end.

(** The [disabled] attribute of the analyse button, line 233. *)
Definition analyzeDisabled (loading : bool) (files : list (option File))
    (context : option AnalysisContext) : bool :=
  negb (defined context) || loading ||
  (if isAB context then (length files <? 2)%nat else (length files <? 1)%nat).

(** ** services/geminiService.ts: cleaning the model's answer

    JavaScript strings are sequences of UTF-16 code units. *)

Definition backtick : N := 96.
Definition comma : N := 44.
Definition fence : list N := [backtick; backtick; backtick].
Definition jsonTag : list N := [106; 115; 111; 110]%N.      (* "json" *)
Definition emptyObject : list N := [123; 125]%N.            (* "{}" *)

(** The class [\s] of a regular expression: white space and line
    terminators. *)
Definition isWhiteSpace (c : N) : bool :=
  (c =? 9)%N || (c =? 10)%N || (c =? 11)%N || (c =? 12)%N || (c =? 13)%N ||
  (c =? 32)%N || (c =? 160)%N || (c =? 5760)%N ||
  ((8192 <=? c)%N && (c <=? 8202)%N) ||
  (c =? 8232)%N || (c =? 8233)%N || (c =? 8239)%N || (c =? 8287)%N ||
  (c =? 12288)%N || (c =? 65279)%N.

(** The rest of [s] after the prefix [p], when [s] starts with [p]. *)
Fixpoint stripPrefix (p s : list N) : option (list N) :=
  match p, s with
  | [], _ => Some s
  | _ :: _, [] => None
  | a :: p', b :: s' => if (a =? b)%N then stripPrefix p' s' else None
  end.

Definition startsWith (p s : list N) : bool := defined (stripPrefix p s).

Fixpoint skipWhiteSpace (s : list N) : list N :=
  match s with
  | c :: s' => if isWhiteSpace c then skipWhiteSpace s' else s
  | [] => []
  end.

(** [s.replace(/^p\s*/, "")] for a literal [p]. *)
Definition replaceLeading (p s : list N) : list N :=
  match stripPrefix p s with
  | Some rest => skipWhiteSpace rest
  | None => s
  end.

(** [s.replace(/```$/, "")]. *)
Definition replaceTrailingFence (s : list N) : list N :=
  if startsWith (rev fence) (rev s) then take (length s - 3) s else s.

(** Lines 622-627: [response.text || "{}"], then the Markdown cleanup. *)
Definition cleanResponseText (responseText : option (list N)) : list N :=
  let text := match responseText with
              | None | Some [] => emptyObject
              | Some t => t
              end in
  if startsWith fence text
  then replaceTrailingFence (replaceLeading fence (replaceLeading (fence ++ jsonTag) text))
  else text.

(** [s.split(sep)] for a one-unit separator. *)
Fixpoint split (sep : N) (s : list N) : list (list N) :=
  match s with
  | [] => [[]]
  | c :: s' =>
      if (c =? sep)%N then [] :: split sep s'
      else match split sep s' with
           | piece :: pieces => (c :: piece) :: pieces
           | [] => [[c]]
           end
  end.

(** [fileToGenerativePart], lines 643-654, from the data URL the reader
    produced: [base64String.split(',')[1]]. *)
Definition base64Data (base64String : list N) : option (list N) :=
  split comma base64String !! 1%nat.

(** * Proofs *)

(** ** Loops and the display list *)

Lemma flat_map_single {A B} (f : A -> B) (l : list A) :
  flat_map (fun a => [f a]) l = map f l.
Proof. induction l as [|a l IH]; cbn; [reflexivity | now rewrite IH]. Qed.

Lemma forEach_emits {A} (Inv : Canvas.t -> Prop) (body : A -> Cmd)
    (ops : A -> list DrawOp) :
  (forall a cv, Inv cv ->
     Inv (body a cv) /\ Canvas.bitmap (body a cv) = Canvas.bitmap cv ++ ops a) ->
  forall l cv, Inv cv ->
    Inv (forEach body l cv) /\
    Canvas.bitmap (forEach body l cv) = Canvas.bitmap cv ++ flat_map ops l.
Proof.
  intros Hbody l. induction l as [|a l IH]; intros cv Hcv.
  - cbn. rewrite app_nil_r. auto.
  - destruct (Hbody a cv Hcv) as [Ha Hbm].
    destruct (IH _ Ha) as [Hl Hbm']. split; [exact Hl|].
    change (forEach body (a :: l) cv) with (forEach body l (body a cv)).
    rewrite Hbm', Hbm, <- app_assoc. reflexivity.
Qed.

(** Unfold canvas statements, leaving the arithmetic alone. *)
Ltac run_canvas :=
  lazy beta iota zeta delta
      [seq skip when onCtx emit extendPath
       set_globalCompositeOperation set_fillStyle set_strokeStyle set_lineWidth
       setLineDash set_shadowColor set_shadowBlur set_font set_textAlign
       set_textBaseline beginPath moveTo lineTo arc fill stroke fillRect fillText
       clearRect set_width set_height
       with_globalCompositeOperation with_fillStyle with_strokeStyle with_lineWidth
       with_lineDash with_shadowColor with_shadowBlur with_font with_textAlign
       with_textBaseline with_currentPath shadowOf
       createRadialGradient addColorStop x0 y0 r0 x1 y1 r1 colorStops
       Canvas.width Canvas.height Canvas.contextMode Canvas.ctx Canvas.bitmap
       globalCompositeOperation fillStyle strokeStyle lineWidth lineDash shadowColor
       shadowBlur font textAlign textBaseline currentPath];
  cbn [app].

Ltac open_canvas cv :=
  let w := fresh "w" in let h := fresh "h" in let m := fresh "m" in
  let bm := fresh "bm" in
  destruct cv as [w h m [] bm]; unfold inState; run_canvas.

Lemma renderHeatmap_bitmap d l cv :
  inState d (fun s => shadowOf s = (transparentBlack, 0)) cv ->
  Canvas.bitmap (renderHeatmap l cv) = Canvas.bitmap cv ++ map (heatSpot d) l.
Proof.
  intros Hcv. rewrite <- flat_map_single.
  unfold renderHeatmap, seq.
  change (Canvas.bitmap (set_globalCompositeOperation ?v ?c)) with (Canvas.bitmap c).
  eapply forEach_emits; [|exact Hcv].
  clear. intros spot cv. open_canvas cv.
  intros (-> & -> & Hs). injection Hs as -> ->.
  repeat split.
Qed.

Lemma renderFogmap_bitmap d l cv :
  inState d (fun s => globalCompositeOperation s = source_over /\
                      shadowOf s = (transparentBlack, 0)) cv ->
  Canvas.bitmap (renderFogmap l cv)
  = Canvas.bitmap cv ++ fogFill d :: map (fogHole d) l.
Proof.
  intros Hcv. rewrite <- flat_map_single.
  unfold renderFogmap, seq.
  change (Canvas.bitmap (set_globalCompositeOperation ?v ?c)) with (Canvas.bitmap c).
  match goal with
  | |- Canvas.bitmap (forEach ?body l ?cv1) = _ =>
      destruct (forEach_emits
        (inState d (fun s => globalCompositeOperation s = destination_out /\
                             shadowOf s = (transparentBlack, 0)))
        body (fun a => [fogHole d a])) with (l := l) (cv := cv1) as [_ ->]
  end.
  - clear. intros spot cv. open_canvas cv.
    intros (-> & -> & -> & Hs). injection Hs as -> ->.
    repeat split.
  - revert Hcv. clear. open_canvas cv.
    intros (-> & -> & -> & Hs). injection Hs as -> ->. repeat split.
  - revert Hcv. clear. open_canvas cv.
    intros (-> & -> & -> & Hs). injection Hs as -> ->.
    rewrite <- app_assoc. reflexivity.
Qed.

Lemma forEachFrom_lines {A} d (body : A -> nat -> Cmd) (v : A -> Q * Q) :
  (forall a idx cv, inState d (fun _ => True) cv -> idx <> 0%nat ->
     body a idx cv = extendPath (LineTo (fst (v a)) (snd (v a))) cv) ->
  forall l idx cv, inState d (fun _ => True) cv -> idx <> 0%nat ->
    forEachFrom idx body l cv
    = onCtx (fun s => with_currentPath
               (currentPath s ++ map (fun a => LineTo (fst (v a)) (snd (v a))) l) s) cv.
Proof.
  intros Hbody l. induction l as [|a l IH]; intros idx cv Hcv Hidx.
  - destruct cv as [w h m [] bm]. cbn [forEachFrom map]. unfold skip. run_canvas.
    now rewrite app_nil_r.
  - cbn [forEachFrom map]. unfold seq. rewrite (Hbody a idx cv Hcv Hidx).
    rewrite IH; [|revert Hcv; clear; open_canvas cv; tauto|lia].
    destruct cv as [w h m [] bm]. run_canvas.
    now rewrite <- app_assoc.
Qed.

Lemma forEachIdx_polyline d (body : Hotspot.t -> nat -> Cmd) :
  (forall a idx cv, inState d (fun _ => True) cv ->
     body a idx cv
     = extendPath ((if (idx =? 0)%nat then MoveTo else LineTo)
                     (fst (pixelOf d a)) (snd (pixelOf d a))) cv) ->
  forall l cv, inState d (fun _ => True) cv ->
    forEachIdx body l cv
    = onCtx (fun s => with_currentPath (currentPath s ++ polyline d l) s) cv.
Proof.
  intros Hbody [|a l] cv Hcv.
  - destruct cv as [w h m [] bm]. unfold forEachIdx. cbn [forEachFrom polyline].
    unfold skip. run_canvas. now rewrite app_nil_r.
  - unfold forEachIdx. cbn [forEachFrom polyline]. unfold seq.
    rewrite (Hbody a 0%nat cv Hcv).
    rewrite (forEachFrom_lines d body (pixelOf d)).
    + destruct cv as [w h m [] bm]. run_canvas. cbn [Nat.eqb].
      now rewrite <- app_assoc.
    + intros b idx cv' Hcv' Hidx. rewrite (Hbody b idx cv' Hcv').
      destruct idx; [congruence | reflexivity].
    + revert Hcv; clear; open_canvas cv; tauto.
    + lia.
Qed.

Lemma renderPath_bitmap d l cv :
  inState d (fun s => globalCompositeOperation s = source_over /\
                      shadowOf s = (transparentBlack, 0)) cv ->
  Canvas.bitmap (renderPath l cv)
  = Canvas.bitmap cv ++ pathLine d l :: flat_map (pathMarker d) l.
Proof.
  intros Hcv. unfold renderPath, seq.
  rewrite (forEachIdx_polyline d).
  - match goal with
    | |- Canvas.bitmap (forEach ?body l ?cv1) = _ =>
        destruct (forEach_emits
          (inState d (fun s => globalCompositeOperation s = source_over /\
                               lineDash s = []))
          body (pathMarker d)) with (l := l) (cv := cv1) as [_ ->]
    end.
    + clear. intros spot cv. open_canvas cv.
      intros (-> & -> & -> & ->). unfold pathMarker, pixelOf.
      destruct (Hotspot.id spot =? 1)%Z; repeat split; now rewrite <- !app_assoc.
    + revert Hcv. clear. open_canvas cv.
      intros (-> & -> & -> & Hs). repeat split.
    + revert Hcv. clear. open_canvas cv.
      intros (-> & -> & -> & Hs). injection Hs as -> ->.
      rewrite <- app_assoc. reflexivity.
  - clear. intros a idx cv. open_canvas cv. intros (-> & -> & _).
    destruct (idx =? 0)%nat; reflexivity.
  - revert Hcv. clear. open_canvas cv. tauto.
Qed.

(** ** The render effect *)

Lemma getContext2d_resetCanvas d cv :
  Canvas.contextMode cv <> ctx_other ->
  exists cv', getContext2d cv = Some cv' /\ resetCanvas d cv' = blank d.
Proof.
  intros Hm. unfold getContext2d.
  destruct (Canvas.contextMode cv); [| |congruence]; eexists; split; reflexivity.
Qed.

Lemma arraySpread_sort_lookup (arr : list Hotspot.t) (h : gmap positive (list Hotspot.t)) :
  arraySort compareById (arraySpread arr h).1 (arraySpread arr h).2
    !! (arraySpread arr h).1
  = Some (sortBy compareById arr).
Proof.
  unfold arraySpread, arraySort. cbn [fst snd].
  rewrite lookup_insert_eq. apply lookup_insert_eq.
Qed.

Lemma arraySpread_sort_frame (arr : list Hotspot.t) (h : gmap positive (list Hotspot.t)) r :
  is_Some (h !! r) ->
  arraySort compareById (arraySpread arr h).1 (arraySpread arr h).2 !! r = h !! r.
Proof.
  intros Hr. unfold arraySpread, arraySort. cbn [fst snd].
  assert (fresh (dom h) <> r) as Hne.
  { intros <-. apply elem_of_dom in Hr. exact (is_fresh (dom h) Hr). }
  rewrite lookup_insert_eq. rewrite !lookup_insert_ne by exact Hne. reflexivity.
Qed.

Lemma renderEffect_canvas props d w cv r arr :
  canvasRef w = Some cv ->
  Canvas.contextMode cv <> ctx_other ->
  hotspots props = Some r ->
  heap w !! r = Some arr ->
  canvasRef (renderEffect props (Some d) w) = Some (rendered d (mode props) arr).
Proof.
  intros Hcv Hm Hr Harr.
  destruct (getContext2d_resetCanvas d cv Hm) as (cv' & Hget & Hreset).
  unfold renderEffect. rewrite Hcv, Hget, Hreset, Hr. cbn [mbind option_bind].
  rewrite Harr. destruct arr as [|a arr]; [reflexivity|].
  cbn [length Nat.eqb].
  rewrite (surjective_pairing (arraySpread (a :: arr) (heap w))).
  cbn [canvasRef]. rewrite arraySpread_sort_lookup. reflexivity.
Qed.

Lemma renderEffect_heap props dims w r :
  is_Some (heap w !! r) ->
  heap (renderEffect props dims w) !! r = heap w !! r.
Proof.
  intros Hr. unfold renderEffect.
  destruct (canvasRef w) as [cv|]; [|reflexivity].
  destruct dims as [d|]; [|reflexivity].
  destruct (getContext2d cv) as [cv'|]; [|reflexivity].
  destruct (hotspots props ≫= _) as [arr|]; [|reflexivity].
  destruct (length arr =? 0)%nat; [reflexivity|].
  rewrite (surjective_pairing (arraySpread arr (heap w))).
  cbn [heap]. apply arraySpread_sort_frame, Hr.
Qed.

Lemma blank_inState d (P : Context2D -> Prop) :
  P defaultContext -> inState d P (blank d).
Proof. intros HP. repeat split. exact HP. Qed.

Lemma drawMode_bitmap d m sorted :
  Canvas.bitmap (drawMode m sorted (blank d))
  = ClearRect 0 0 (num (Dimensions.width d)) (num (Dimensions.height d))
    :: modeOps d m sorted.
Proof.
  destruct m; unfold drawMode, seq, when; cbn [mode_eqb]; unfold skip.
  - apply (renderHeatmap_bitmap d). now apply blank_inState.
  - apply (renderFogmap_bitmap d). now apply blank_inState.
  - apply (renderPath_bitmap d). now apply blank_inState.
Qed.

Lemma rendered_bitmap d m arr :
  Canvas.bitmap (rendered d m arr)
  = ClearRect 0 0 (num (Dimensions.width d)) (num (Dimensions.height d))
    :: match arr with [] => [] | _ :: _ => modeOps d m (sortBy compareById arr) end.
Proof. destruct arr; [reflexivity | apply drawMode_bitmap]. Qed.

(** ** Sorting by [id] *)

Section Sorting.
Context {A : Type} (compareFn : A -> A -> Z).

Lemma insertBy_perm a l : Permutation (insertBy compareFn a l) (a :: l).
Proof.
  induction l as [|b l IH]; cbn; [reflexivity|].
  destruct (compareFn a b <=? 0)%Z; [reflexivity|].
  rewrite IH. apply perm_swap.
Qed.

Lemma sortBy_perm l : Permutation (sortBy compareFn l) l.
Proof.
  induction l as [|a l IH]; cbn; [reflexivity|].
  rewrite insertBy_perm. now rewrite IH.
Qed.

Lemma sortBy_length l : length (sortBy compareFn l) = length l.
Proof. apply Permutation_length, sortBy_perm. Qed.

Lemma sortBy_nil l : sortBy compareFn l = [] -> l = [].
Proof.
  intros H. apply (f_equal (@length A)) in H. rewrite sortBy_length in H.
  now destruct l.
Qed.
End Sorting.

Lemma insertBy_sorted a l :
  StronglySorted idLe l -> StronglySorted idLe (insertBy compareById a l).
Proof.
  induction 1 as [|b l Hl IH Hb]; cbn.
  - repeat constructor.
  - unfold compareById at 1.
    destruct (Z.leb_spec (Hotspot.id a - Hotspot.id b) 0) as [Hab|Hab].
    + constructor; [now constructor|].
      constructor; [unfold idLe; lia|].
      eapply List.Forall_impl; [|exact Hb]. unfold idLe. intros c Hc. lia.
    + constructor; [exact IH|].
      rewrite (insertBy_perm compareById a l).
      constructor; [unfold idLe; lia | exact Hb].
Qed.

Lemma sortBy_sorted l : StronglySorted idLe (sortBy compareById l).
Proof.
  induction l as [|a l IH]; cbn; [constructor | now apply insertBy_sorted].
Qed.





(** ** Image metrics resolver *)

(** The load notification keeps the metrics positive. *)
Lemma onImageLoad_positive img dims :
  positiveMetrics dims -> positiveMetrics (onImageLoad img dims).
Proof.
  intros Hd. unfold onImageLoad.
  destruct (N.ltb_spec 0 (naturalWidth img)), (N.ltb_spec 0 (naturalHeight img));
    cbn; auto.
Qed.

(** The inspection of an already decoded image keeps the width positive. *)
Lemma cachedImageEffect_width img dims d :
  positiveMetrics dims ->
  cachedImageEffect img dims = Some d -> (0 < Dimensions.width d)%N.
Proof.
  unfold cachedImageEffect. intros Hd.
  destruct img as [img|]; [|intros ->; apply Hd].
  destruct (complete img); cbn; [|intros ->; apply Hd].
  destruct (N.ltb_spec 0 (naturalWidth img)); [|intros ->; apply Hd].
  now intros [= <-].
Qed.

(** C2, on the code: the inspection path of [cachedImageEffect] tests the
    width only.  An already decoded image that reports width 10 and height 0
    has its reading stored, where [onImageLoad] discards the same reading; the
    render effect then runs on a canvas of height 0 and paints both points. *)
Theorem cached_image_stores_zero_height :
  let img := {| complete := true; naturalWidth := 10; naturalHeight := 0 |} in
  cachedImageEffect (Some img) None = Some (Dimensions.mk 10 0) /\
  ~ positiveMetrics (cachedImageEffect (Some img) None) /\
  onImageLoad img None = None /\
  exists cv,
    canvasRef (renderEffect (sceneProps heatmap) (cachedImageEffect (Some img) None)
                            (scene [spotA; spotB])) = Some cv /\
    Canvas.height cv = 0%N /\
    length (Canvas.bitmap cv) = 3%nat.
Proof.
  cbn zeta. split; [reflexivity|]. split; [|split; [reflexivity|]].
  - cbn. intros [_ H]. lia.
  - eexists. split; [vm_compute; reflexivity|]. split; reflexivity.
Qed.

(** ** Ownership of the hotspot array *)

(** C9: every array that exists before a render, the hotspot array among
    them, has the same contents after it, in every mode and whatever the
    state of the canvas and of the metrics. *)
Theorem render_leaves_hotspots_unchanged props dims w r
    (arr : list Hotspot.t) :
  heap w !! r = Some arr ->
  heap (renderEffect props dims w) !! r = Some arr.
Proof.
  intros Hr. rewrite renderEffect_heap; [exact Hr | now exists arr].
Qed.

Lemma render_leaves_hotspots_unchanged_witness :
  heap (renderEffect (sceneProps path) (Some (square 1000)) (scene [spotB; spotA]))
    !! 1%positive = Some [spotB; spotA].
Proof.
  apply (render_leaves_hotspots_unchanged (sceneProps path) (Some (square 1000))
           (scene [spotB; spotA]) 1%positive [spotB; spotA]).
  reflexivity.
Defined.

(** The sort is stable: points of equal order keep their input order. *)
Example sortBy_stable :
  map Hotspot.x
      (sortBy compareById [Hotspot.mk 2 30 0 0 None; Hotspot.mk 1 10 0 0 None;
                           Hotspot.mk 2 40 0 0 None; Hotspot.mk 1 20 0 0 None])
  = [10; 20; 30; 40].
Proof. reflexivity. Qed.

(** Sorting the array itself would have reordered it. *)
Example arraySort_in_place :
  arraySort compareById 1%positive (heap (scene [spotB; spotA])) !! 1%positive
  = Some [spotA; spotB].
Proof. reflexivity. Qed.

(** ** What drawing leaves alone *)

Lemma forEach_preserves {A} (Inv : Canvas.t -> Prop) (body : A -> Cmd) :
  (forall a cv, Inv cv -> Inv (body a cv)) ->
  forall l cv, Inv cv -> Inv (forEach body l cv).
Proof.
  intros Hbody l. induction l as [|a l IH]; intros cv Hcv; [exact Hcv|].
  apply (IH (body a cv)), Hbody, Hcv.
Qed.

Lemma forEachFrom_preserves {A} (Inv : Canvas.t -> Prop) (body : A -> nat -> Cmd) :
  (forall a idx cv, Inv cv -> Inv (body a idx cv)) ->
  forall l idx cv, Inv cv -> Inv (forEachFrom idx body l cv).
Proof.
  intros Hbody l. induction l as [|a l IH]; intros idx cv Hcv; [exact Hcv|].
  apply (IH (S idx) (body a idx cv)), Hbody, Hcv.
Qed.

Lemma contextMode_onCtx f cv :
  Canvas.contextMode (onCtx f cv) = Canvas.contextMode cv.
Proof. reflexivity. Qed.

Lemma contextMode_emit op cv :
  Canvas.contextMode (emit op cv) = Canvas.contextMode cv.
Proof. reflexivity. Qed.

Lemma drawMode_contextMode m l cv :
  Canvas.contextMode (drawMode m l cv) = Canvas.contextMode cv.
Proof.
  destruct m; unfold drawMode, seq, when; cbn [mode_eqb]; unfold skip.
  - unfold renderHeatmap, seq, set_globalCompositeOperation at 1.
    rewrite contextMode_onCtx.
    apply (forEach_preserves (fun c => Canvas.contextMode c = Canvas.contextMode cv));
      [|reflexivity].
    intros a [? ? ? [] ?] H. exact H.
  - unfold renderFogmap, seq, set_globalCompositeOperation at 1.
    rewrite contextMode_onCtx.
    apply (forEach_preserves (fun c => Canvas.contextMode c = Canvas.contextMode cv));
      [|reflexivity].
    intros a [? ? ? [] ?] H. exact H.
  - unfold renderPath, seq.
    apply (forEach_preserves (fun c => Canvas.contextMode c = Canvas.contextMode cv)).
    { intros a [? ? ? [] ?] H. exact H. }
    unfold setLineDash at 1, stroke. rewrite contextMode_onCtx, contextMode_emit.
    apply (forEachFrom_preserves (fun c => Canvas.contextMode c = Canvas.contextMode cv));
      [|reflexivity].
    intros a idx [? ? ? [] ?] H. destruct idx; exact H.
Qed.

Lemma rendered_contextMode d m arr : Canvas.contextMode (rendered d m arr) = ctx_2d.
Proof. destruct arr; [reflexivity | apply drawMode_contextMode]. Qed.

Lemma rendered_sorted d m arr1 arr2 :
  sortBy compareById arr1 = sortBy compareById arr2 ->
  rendered d m arr1 = rendered d m arr2.
Proof.
  intros Hs. destruct arr1 as [|a1 arr1], arr2 as [|a2 arr2]; [reflexivity| | |].
  - symmetry in Hs. now apply sortBy_nil in Hs.
  - now apply sortBy_nil in Hs.
  - unfold rendered. now rewrite Hs.
Qed.

(** ** Purity of a render *)

(** C7: with resolved metrics, the canvas a render leaves (size, context
    state and display list) is the same for any two starting worlds whose
    mode and sorted points agree; the display list starts from a clear of the
    whole surface; rendering again changes nothing; and a render in another
    mode after this one leaves what that mode leaves from any start. *)
Theorem render_is_pure props1 props2 d w1 w2 cv1 cv2 r1 r2 arr1 arr2 :
  canvasRef w1 = Some cv1 -> Canvas.contextMode cv1 <> ctx_other ->
  hotspots props1 = Some r1 -> heap w1 !! r1 = Some arr1 ->
  canvasRef w2 = Some cv2 -> Canvas.contextMode cv2 <> ctx_other ->
  hotspots props2 = Some r2 -> heap w2 !! r2 = Some arr2 ->
  mode props1 = mode props2 ->
  sortBy compareById arr1 = sortBy compareById arr2 ->
  canvasRef (renderEffect props1 (Some d) w1)
    = canvasRef (renderEffect props2 (Some d) w2) /\
  (exists ops, surface (renderEffect props1 (Some d) w1)
     = ClearRect 0 0 (num (Dimensions.width d)) (num (Dimensions.height d)) :: ops) /\
  canvasRef (renderEffect props1 (Some d) (renderEffect props1 (Some d) w1))
    = canvasRef (renderEffect props1 (Some d) w1) /\
  forall m,
    canvasRef (renderEffect (withMode m props1) (Some d)
                 (renderEffect props1 (Some d) w1))
    = canvasRef (renderEffect (withMode m props1) (Some d) w1).
Proof.
  intros Hc1 Hm1 Hr1 Ha1 Hc2 Hm2 Hr2 Ha2 Hmode Hsort.
  pose proof (renderEffect_canvas props1 d w1 cv1 r1 arr1 Hc1 Hm1 Hr1 Ha1) as E1.
  pose proof (renderEffect_canvas props2 d w2 cv2 r2 arr2 Hc2 Hm2 Hr2 Ha2) as E2.
  assert (Canvas.contextMode (rendered d (mode props1) arr1) <> ctx_other) as Hm'
    by (rewrite rendered_contextMode; discriminate).
  assert (heap (renderEffect props1 (Some d) w1) !! r1 = Some arr1) as Ha'
    by (rewrite renderEffect_heap; [exact Ha1 | now exists arr1]).
  repeat split.
  - rewrite E1, E2, Hmode. f_equal. now apply rendered_sorted.
  - unfold surface. rewrite E1. cbn [from_option]. rewrite rendered_bitmap. eauto.
  - rewrite (renderEffect_canvas props1 d _ _ r1 arr1 E1 Hm' Hr1 Ha'). now rewrite E1.
  - intros m.
    rewrite (renderEffect_canvas (withMode m props1) d _ _ r1 arr1 E1 Hm' Hr1 Ha').
    now rewrite (renderEffect_canvas (withMode m props1) d w1 cv1 r1 arr1 Hc1 Hm1 Hr1 Ha1).
Qed.

Lemma render_is_pure_witness :
  canvasRef (renderEffect (sceneProps fogmap) (Some (square 1000)) (scene [spotA; spotB]))
  = canvasRef (renderEffect (sceneProps fogmap) (Some (square 1000))
                 (renderEffect (sceneProps heatmap) (Some (square 1000))
                               (scene [spotB; spotA]))).
Proof.
  refine (proj1 (render_is_pure (sceneProps fogmap) (sceneProps fogmap) (square 1000)
            (scene [spotA; spotB])
            (renderEffect (sceneProps heatmap) (Some (square 1000)) (scene [spotB; spotA]))
            sceneCanvas
            (rendered (square 1000) heatmap [spotB; spotA])
            1%positive 1%positive [spotA; spotB] [spotB; spotA]
            _ _ _ _ _ _ _ _ _ _)).
  - reflexivity.
  - simpl. discriminate.
  - reflexivity.
  - reflexivity.
  - vm_compute. reflexivity.
  - vm_compute. discriminate.
  - reflexivity.
  - vm_compute. reflexivity.
  - reflexivity.
  - vm_compute. reflexivity.
Defined.

(** ** Compositing mode *)

Lemma renderHeatmap_restores l cv :
  globalCompositeOperation (Canvas.ctx (renderHeatmap l cv)) = source_over.
Proof. reflexivity. Qed.

Lemma renderFogmap_restores l cv :
  globalCompositeOperation (Canvas.ctx (renderFogmap l cv)) = source_over.
Proof. reflexivity. Qed.

Lemma heatSpot_composite d l :
  Forall (fun op => compositeOf op = Some screen) (map (heatSpot d) l).
Proof. apply Forall_map, Forall_true. reflexivity. Qed.

Lemma fogHole_composite d l :
  Forall (fun op => compositeOf op = Some destination_out) (map (fogHole d) l).
Proof. apply Forall_map, Forall_true. reflexivity. Qed.

(** C8: the heatmap block and the fog-map block end with the compositing
    mode back at 'source-over', from any context state and for any points;
    so does a render in either mode.  Every point of a heatmap render is
    filled under 'screen'; a fog-map render fills the fog under 'source-over'
    and every hole under 'destination-out'. *)
Theorem compositing_mode_restored props d w cv r arr :
  canvasRef w = Some cv -> Canvas.contextMode cv <> ctx_other ->
  hotspots props = Some r -> heap w !! r = Some arr ->
  mode props <> path ->
  (forall l cv0,
     globalCompositeOperation (Canvas.ctx (renderHeatmap l cv0)) = source_over /\
     globalCompositeOperation (Canvas.ctx (renderFogmap l cv0)) = source_over) /\
  (exists cv', canvasRef (renderEffect props (Some d) w) = Some cv' /\
     globalCompositeOperation (Canvas.ctx cv') = source_over) /\
  (mode props = heatmap ->
     exists spots,
       surface (renderEffect props (Some d) w)
         = ClearRect 0 0 (num (Dimensions.width d)) (num (Dimensions.height d)) :: spots /\
       length spots = length arr /\
       Forall (fun op => compositeOf op = Some screen) spots) /\
  (mode props = fogmap -> arr <> [] ->
     exists fog holes,
       surface (renderEffect props (Some d) w)
         = ClearRect 0 0 (num (Dimensions.width d)) (num (Dimensions.height d))
           :: fog :: holes /\
       compositeOf fog = Some source_over /\
       length holes = length arr /\
       Forall (fun op => compositeOf op = Some destination_out) holes).
Proof.
  intros Hc Hm Hr Ha Hmode.
  pose proof (renderEffect_canvas props d w cv r arr Hc Hm Hr Ha) as E.
  split; [|split; [|split]].
  - intros l cv0. split; reflexivity.
  - eexists. split; [exact E|].
    destruct arr; [reflexivity|].
    destruct (mode props); [reflexivity | reflexivity | congruence].
  - intros Hheat. unfold surface. rewrite E, Hheat. cbn [from_option].
    rewrite rendered_bitmap. destruct arr as [|a arr].
    + exists []. repeat split. constructor.
    + eexists. split; [reflexivity|]. split.
      * cbn [modeOps]. now rewrite length_map, sortBy_length.
      * apply heatSpot_composite.
  - intros Hfog Hne. unfold surface. rewrite E, Hfog. cbn [from_option].
    rewrite rendered_bitmap. destruct arr as [|a arr]; [congruence|].
    eexists _, _. split; [reflexivity|]. split; [reflexivity|]. split.
    + now rewrite length_map, sortBy_length.
    + apply fogHole_composite.
Qed.

Lemma compositing_mode_restored_witness :
  exists cv', canvasRef (renderEffect (sceneProps heatmap) (Some (square 1000))
                                      (scene [spotA; spotB])) = Some cv' /\
    globalCompositeOperation (Canvas.ctx cv') = source_over.
Proof.
  refine (proj1 (proj2 (compositing_mode_restored (sceneProps heatmap) (square 1000)
            (scene [spotA; spotB]) sceneCanvas 1%positive [spotA; spotB] _ _ _ _ _))).
  - reflexivity.
  - simpl. discriminate.
  - reflexivity.
  - reflexivity.
  - simpl. discriminate.
Defined.

(** ** Pixels of a display list *)

#[global] Instance pixel_eq_equiv : Equivalence pixel_eq.
Proof.
  split.
  - intros p. repeat split; reflexivity.
  - intros p q (H1 & H2 & H3 & H4). repeat split; now symmetry.
  - intros p q r (H1 & H2 & H3 & H4) (K1 & K2 & K3 & K4).
    repeat split; etransitivity; eassumption.
Qed.

Section Pixels.
Variable shade : DrawOp -> Z * Z -> Pixel.

Lemma composite_dst_proper op src dst dst' :
  pixel_eq dst dst' -> pixel_eq (composite op src dst) (composite op src dst').
Proof.
  intros (H1 & H2 & H3 & H4).
  destruct op; unfold pixel_eq; cbn; rewrite H1, H2, H3, H4; repeat split; reflexivity.
Qed.

Lemma paint_dst_proper p op dst dst' :
  pixel_eq dst dst' -> pixel_eq (paint shade p dst op) (paint shade p dst' op).
Proof.
  intros H. destruct op; cbn [paint]; try now apply composite_dst_proper.
  destruct (covers x y w h p); [reflexivity | exact H].
Qed.

Lemma fold_paint_proper p ops dst dst' :
  pixel_eq dst dst' ->
  pixel_eq (fold_left (paint shade p) ops dst) (fold_left (paint shade p) ops dst').
Proof.
  revert dst dst'. induction ops as [|op ops IH]; intros dst dst' H; [exact H|].
  cbn [fold_left]. now apply IH, paint_dst_proper.
Qed.

(** Two 'screen' blends, and two 'destination-out' erasures, commute. *)
Lemma screen_commutes s1 s2 dst :
  pixel_eq (composite screen s2 (composite screen s1 dst))
           (composite screen s1 (composite screen s2 dst)).
Proof. unfold pixel_eq; cbn; repeat split; ring. Qed.

Lemma destination_out_commutes s1 s2 dst :
  pixel_eq (composite destination_out s2 (composite destination_out s1 dst))
           (composite destination_out s1 (composite destination_out s2 dst)).
Proof. unfold pixel_eq; cbn; repeat split; ring. Qed.

Lemma paint_composite p op d dst :
  compositeOf d = Some op -> paint shade p dst d = composite op (shade d p) dst.
Proof. destruct d; cbn; congruence. Qed.

Lemma paint_commutes op p d1 d2 dst :
  op <> source_over ->
  compositeOf d1 = Some op -> compositeOf d2 = Some op ->
  pixel_eq (paint shade p (paint shade p dst d1) d2)
           (paint shade p (paint shade p dst d2) d1).
Proof.
  intros Hop H1 H2.
  rewrite !(paint_composite p op) by assumption.
  destruct op; [congruence | apply screen_commutes | apply destination_out_commutes].
Qed.

(** Paint calls under one commuting operator may be reordered. *)
Lemma fold_paint_permutation op p ops ops' :
  op <> source_over ->
  Permutation ops ops' ->
  Forall (fun d => compositeOf d = Some op) ops ->
  forall dst,
    pixel_eq (fold_left (paint shade p) ops dst) (fold_left (paint shade p) ops' dst).
Proof.
  intros Hop Hp. induction Hp as [|d l l' Hp IH|d1 d2 l|l l' l'' Hp1 IH1 Hp2 IH2];
    intros Hall dst.
  - reflexivity.
  - cbn [fold_left]. apply IH. now inversion Hall.
  - cbn [fold_left]. apply fold_paint_proper.
    inversion Hall as [|? ? H1 Hall']; subst. inversion Hall' as [|? ? H2 _]; subst.
    now apply (paint_commutes op).
  - etransitivity; [now apply IH1|]. apply IH2.
    rewrite List.Forall_forall in Hall |- *. intros d Hd. apply Hall.
    eapply Permutation_in; [symmetry; exact Hp1 | exact Hd].
Qed.

Lemma pixelAt_cleared x y w h ops p :
  pixelAt shade (ClearRect x y w h :: ops) p = pixelAt shade ops p.
Proof.
  unfold pixelAt. cbn [fold_left paint]. now destruct (covers x y w h p).
Qed.

Lemma modeOps_permutation d m l l' p :
  m <> path -> Permutation l l' ->
  pixel_eq (pixelAt shade (modeOps d m l) p) (pixelAt shade (modeOps d m l') p).
Proof.
  intros Hm Hp. destruct m; [| |congruence]; unfold pixelAt; cbn [modeOps fold_left].
  - apply (fold_paint_permutation screen); [discriminate| |apply heatSpot_composite].
    now apply Permutation_map.
  - apply (fold_paint_permutation destination_out);
      [discriminate| |apply fogHole_composite].
    now apply Permutation_map.
Qed.
End Pixels.

(** ** The empty attention set *)

(** C1, on the code: rendering the empty set in fog-map mode on a 500×500
    surface paints nothing after the clear, so the pixel at the origin (like
    every other) is transparent rather than 92% opaque. *)
Lemma fogmap_empty_set_is_transparent :
  let w' := renderEffect (sceneProps fogmap) (Some (square 500)) (scene []) in
  surface w' = [ClearRect 0 0 500 500] /\
  (exists cv', canvasRef w' = Some cv' /\ onCanvas cv' (0, 0)%Z) /\
  forall shade,
    pixelAt shade (surface w') (0, 0)%Z = transparent /\
    ~ pa (pixelAt shade (surface w') (0, 0)%Z) == 0.92.
Proof.
  cbn zeta. split; [reflexivity|]. split.
  - eexists. split; [reflexivity|]. vm_compute. intuition discriminate.
  - intros shade. split; [reflexivity|]. cbn. intros H. discriminate H.
Qed.

(** C1, amended: for the empty attention set (or none at all) and any
    resolved metrics, a render in any of the three modes leaves a canvas of
    the resolved size on which every pixel is transparent. *)
Theorem empty_set_renders_transparent shade props d w cv :
  canvasRef w = Some cv -> Canvas.contextMode cv <> ctx_other ->
  hotspots props ≫= (fun r => heap w !! r) = Some [] \/ hotspots props = None ->
  exists cv',
    canvasRef (renderEffect props (Some d) w) = Some cv' /\
    Canvas.width cv' = Dimensions.width d /\
    Canvas.height cv' = Dimensions.height d /\
    forall p, pixelAt shade (Canvas.bitmap cv') p = transparent.
Proof.
  intros Hc Hm Hempty.
  destruct (getContext2d_resetCanvas d cv Hm) as (cv' & Hget & Hreset).
  exists (blank d). split.
  - unfold renderEffect. rewrite Hc, Hget, Hreset.
    destruct Hempty as [-> | ->]; reflexivity.
  - repeat split. intros p. cbn [blank Canvas.bitmap].
    now rewrite pixelAt_cleared.
Qed.

Lemma empty_set_renders_transparent_witness :
  exists cv',
    canvasRef (renderEffect (sceneProps fogmap) (Some (square 500)) (scene [])) = Some cv' /\
    Canvas.width cv' = 500%N /\
    Canvas.height cv' = 500%N /\
    forall p, pixelAt (fun _ _ => px 1 1 1 1) (Canvas.bitmap cv') p = transparent.
Proof.
  apply (empty_set_renders_transparent (fun _ _ => px 1 1 1 1) (sceneProps fogmap)
           (square 500) (scene []) sceneCanvas).
  - reflexivity.
  - simpl. discriminate.
  - left. reflexivity.
Defined.

(** ** Order of the points in heatmap and fog-map mode *)

(** C10: in heatmap and in fog-map mode, two renders whose point lists are
    permutations of each other (repeated orders allowed) agree on every
    pixel, for any rasteriser; and the render agrees on every pixel with the
    mode block run on the unsorted list. *)
Theorem heat_and_fog_ignore_point_order shade props1 props2 d
    w1 w2 cv1 cv2 r1 r2 arr1 arr2 :
  canvasRef w1 = Some cv1 -> Canvas.contextMode cv1 <> ctx_other ->
  hotspots props1 = Some r1 -> heap w1 !! r1 = Some arr1 ->
  canvasRef w2 = Some cv2 -> Canvas.contextMode cv2 <> ctx_other ->
  hotspots props2 = Some r2 -> heap w2 !! r2 = Some arr2 ->
  mode props1 = mode props2 -> mode props1 <> path ->
  Permutation arr1 arr2 ->
  forall p,
    pixel_eq (pixelAt shade (surface (renderEffect props1 (Some d) w1)) p)
             (pixelAt shade (surface (renderEffect props2 (Some d) w2)) p) /\
    (arr1 <> [] ->
     pixel_eq (pixelAt shade (surface (renderEffect props1 (Some d) w1)) p)
              (pixelAt shade (Canvas.bitmap (drawMode (mode props1) arr1 (blank d))) p)).
Proof.
  intros Hc1 Hm1 Hr1 Ha1 Hc2 Hm2 Hr2 Ha2 Hmode Hnp Hperm p.
  unfold surface.
  rewrite (renderEffect_canvas props1 d w1 cv1 r1 arr1 Hc1 Hm1 Hr1 Ha1).
  rewrite (renderEffect_canvas props2 d w2 cv2 r2 arr2 Hc2 Hm2 Hr2 Ha2).
  cbn [from_option]. rewrite !rendered_bitmap, <- Hmode, !pixelAt_cleared. split.
  - destruct arr1 as [|a1 arr1], arr2 as [|a2 arr2].
    + reflexivity.
    + now apply Permutation_nil_cons in Hperm.
    + now apply Permutation_sym, Permutation_nil_cons in Hperm.
    + apply modeOps_permutation; [exact Hnp|].
      rewrite !sortBy_perm. exact Hperm.
  - intros Hne. destruct arr1 as [|a1 arr1]; [congruence|].
    rewrite drawMode_bitmap, pixelAt_cleared.
    apply modeOps_permutation; [exact Hnp | apply sortBy_perm].
Qed.

Lemma heat_and_fog_ignore_point_order_witness :
  let left := Hotspot.mk 1 10 10 0.9 None in
  let right := Hotspot.mk 1 90 90 0.2 None in
  let shade := fun (op : DrawOp) (_ : Z * Z) =>
    match op with
    | Fill (Arc x y _ _ _ :: _) _ _ _ => px (x / 1000) (y / 2000) 0 (x / 1000)
    | _ => transparent
    end in
  let one := surface (renderEffect (sceneProps heatmap) (Some (square 1000))
                                   (scene [left; right])) in
  let other := surface (renderEffect (sceneProps heatmap) (Some (square 1000))
                                     (scene [right; left])) in
  one <> other /\
  ~ pixel_eq (shade (heatSpot (square 1000) left) (100, 100)%Z)
             (shade (heatSpot (square 1000) right) (100, 100)%Z) /\
  pixel_eq (pixelAt shade one (100, 100)%Z) (pixelAt shade other (100, 100)%Z).
Proof.
  cbn zeta. split; [|split].
  - intros H. vm_compute in H. discriminate H.
  - intros (H & _). vm_compute in H. discriminate H.
  - refine (proj1 (heat_and_fog_ignore_point_order _
              (sceneProps heatmap) (sceneProps heatmap) (square 1000)
              (scene [Hotspot.mk 1 10 10 0.9 None; Hotspot.mk 1 90 90 0.2 None])
              (scene [Hotspot.mk 1 90 90 0.2 None; Hotspot.mk 1 10 10 0.9 None])
              sceneCanvas sceneCanvas 1%positive 1%positive
              [Hotspot.mk 1 10 10 0.9 None; Hotspot.mk 1 90 90 0.2 None]
              [Hotspot.mk 1 90 90 0.2 None; Hotspot.mk 1 10 10 0.9 None]
              _ _ _ _ _ _ _ _ _ _ _ (100, 100)%Z)).
    + reflexivity.
    + simpl. discriminate.
    + reflexivity.
    + reflexivity.
    + reflexivity.
    + simpl. discriminate.
    + reflexivity.
    + reflexivity.
    + reflexivity.
    + simpl. discriminate.
    + apply perm_swap.
Defined.

(** With the same two points of equal order, a path render does depend on
    the order of the input: the line runs from the first to the second. *)
Example path_mode_follows_input_order_on_ties :
  let left := Hotspot.mk 1 10 10 0.9 None in
  let right := Hotspot.mk 1 90 90 0.2 None in
  map (map (fun c => (Qred (fst c), Qred (snd c))))
      (map (flat_map vertex)
           (dashedStrokes (surface (renderEffect (sceneProps path) (Some (square 1000))
                                                 (scene [left; right])))))
    = [[(100, 100); (900, 900)]] /\
  map (map (fun c => (Qred (fst c), Qred (snd c))))
      (map (flat_map vertex)
           (dashedStrokes (surface (renderEffect (sceneProps path) (Some (square 1000))
                                                 (scene [right; left])))))
    = [[(900, 900); (100, 100)]].
Proof. cbn zeta. split; vm_compute; reflexivity. Qed.

(** ** Reading the display list of each mode *)

Lemma flat_map_pointwise {A B C} (f : B -> list C) (g : A -> list B)
    (h : A -> list C) (l : list A) :
  (forall a, flat_map f (g a) = h a) ->
  flat_map f (flat_map g l) = flat_map h l.
Proof.
  intros Hp. induction l as [|a l IH]; [reflexivity|].
  cbn [flat_map]. now rewrite flat_map_app, Hp, IH.
Qed.

Lemma flat_map_map_pointwise {A B C} (f : B -> list C) (g : A -> B)
    (h : A -> list C) (l : list A) :
  (forall a, f (g a) = h a) ->
  flat_map f (map g l) = flat_map h l.
Proof.
  intros Hp. induction l as [|a l IH]; [reflexivity|].
  cbn [flat_map map]. now rewrite Hp, IH.
Qed.

Lemma flat_map_nil {A B} (l : list A) : flat_map (fun _ => @nil B) l = [].
Proof. induction l; [reflexivity | assumption]. Qed.

Lemma polyline_vertices d l : flat_map vertex (polyline d l) = map (pixelOf d) l.
Proof.
  destruct l as [|s l]; [reflexivity|]. cbn [polyline flat_map vertex app map].
  f_equal. induction l as [|s' l IH]; [reflexivity|].
  cbn [map flat_map vertex app]. now rewrite IH.
Qed.

Lemma polyline_segments d s l : segments (polyline d (s :: l)) = length l.
Proof.
  unfold segments. cbn [polyline List.filter isLineTo].
  induction l as [|s' l IH]; [reflexivity|].
  cbn [map List.filter isLineTo length]. now rewrite IH.
Qed.

Lemma marker_dashedStrokes d l : dashedStrokes (flat_map (pathMarker d) l) = [].
Proof.
  unfold dashedStrokes. rewrite (flat_map_pointwise _ _ (fun _ => [])).
  - apply flat_map_nil.
  - intros s. unfold pathMarker, pixelOf.
    destruct (Hotspot.id s =? 1)%Z; reflexivity.
Qed.

Lemma marker_fills d l :
  markerFills (flat_map (pathMarker d) l)
  = map (fun s => fst (markerColors
                         (if (Hotspot.id s =? 1)%Z then inverted else standard))) l.
Proof.
  unfold markerFills. rewrite <- flat_map_single. apply flat_map_pointwise.
  intros s. unfold pathMarker, pixelOf.
  destruct (Hotspot.id s =? 1)%Z; reflexivity.
Qed.

Lemma marker_labels d l :
  markerLabels (flat_map (pathMarker d) l)
  = map (fun s => (pretty (Hotspot.id s),
                   snd (markerColors
                          (if (Hotspot.id s =? 1)%Z then inverted else standard)))) l.
Proof.
  unfold markerLabels. rewrite <- flat_map_single. apply flat_map_pointwise.
  intros s. unfold pathMarker, pixelOf.
  destruct (Hotspot.id s =? 1)%Z; reflexivity.
Qed.

Lemma marker_anchors d l :
  flat_map anchors (flat_map (pathMarker d) l)
  = flat_map (fun s => [pixelOf d s; pixelOf d s;
                        (fst (pixelOf d s), snd (pixelOf d s) + 2)]) l.
Proof.
  apply flat_map_pointwise.
  intros s. unfold pathMarker, pixelOf.
  destruct (Hotspot.id s =? 1)%Z; reflexivity.
Qed.

(** The surface of a path render. *)
Lemma path_surface props d w cv r arr :
  canvasRef w = Some cv -> Canvas.contextMode cv <> ctx_other ->
  hotspots props = Some r -> heap w !! r = Some arr ->
  mode props = path -> arr <> [] ->
  surface (renderEffect props (Some d) w)
  = ClearRect 0 0 (num (Dimensions.width d)) (num (Dimensions.height d))
    :: pathLine d (sortBy compareById arr)
    :: flat_map (pathMarker d) (sortBy compareById arr).
Proof.
  intros Hc Hm Hr Ha Hmode Hne. unfold surface.
  rewrite (renderEffect_canvas props d w cv r arr Hc Hm Hr Ha), Hmode.
  cbn [from_option]. rewrite rendered_bitmap.
  destruct arr; [congruence | reflexivity].
Qed.

(** ** Path mode: entry marker *)

(** C3, on the code: for the points of order 2 and 5 the point of minimum
    order (2) gets the standard look, white fill and coloured number; no
    marker is inverted. *)
Lemma minimum_order_two_is_not_inverted :
  let first := Hotspot.mk 2 10 10 0.9 None in
  let second := Hotspot.mk 5 90 90 0.2 None in
  let bm := surface (renderEffect (sceneProps path) (Some (square 1000))
                                  (scene [second; first])) in
  markerFills bm = [fst (markerColors standard); fst (markerColors standard)] /\
  markerLabels bm = [("2"%string, snd (markerColors standard));
                     ("5"%string, snd (markerColors standard))] /\
  markerColors standard <> markerColors inverted.
Proof.
  cbn zeta. split; [vm_compute; reflexivity|]. split; [vm_compute; reflexivity|].
  discriminate.
Qed.

(** C3, amended: in path mode every point gets one marker, in ascending
    order; the marker is inverted (coloured fill, white number) exactly when
    the point's order is 1 and standard (white fill, coloured number)
    otherwise.  When all orders are at least 1, a point of order 1 is a
    point of minimum order. *)
Theorem path_marker_inverted_iff_order_one props d w cv r arr :
  canvasRef w = Some cv -> Canvas.contextMode cv <> ctx_other ->
  hotspots props = Some r -> heap w !! r = Some arr ->
  mode props = path -> arr <> [] ->
  let bm := surface (renderEffect props (Some d) w) in
  let style (s : Hotspot.t) :=
    if (Hotspot.id s =? 1)%Z then inverted else standard in
  Permutation (sortBy compareById arr) arr /\
  markerFills bm = map (fun s => fst (markerColors (style s))) (sortBy compareById arr) /\
  markerLabels bm
    = map (fun s => (pretty (Hotspot.id s), snd (markerColors (style s))))
          (sortBy compareById arr) /\
  (forall s, style s = inverted <-> Hotspot.id s = 1%Z) /\
  (Forall (fun s => (1 <= Hotspot.id s)%Z) arr ->
   forall s, Hotspot.id s = 1%Z -> Forall (idLe s) arr).
Proof.
  intros Hc Hm Hr Ha Hmode Hne bm style. subst bm.
  rewrite (path_surface props d w cv r arr Hc Hm Hr Ha Hmode Hne).
  split; [apply sortBy_perm|]. split; [|split; [|split]].
  - change (markerFills (?a :: ?b :: ?l)) with (markerFills l). apply marker_fills.
  - change (markerLabels (?a :: ?b :: ?l)) with (markerLabels l). apply marker_labels.
  - intros s. unfold style. destruct (Z.eqb_spec (Hotspot.id s) 1); split; congruence.
  - intros Hpos s Hs. eapply List.Forall_impl; [|exact Hpos].
    intros s' Hs'. unfold idLe. cbv beta in Hs'. lia.
Qed.

Lemma path_marker_inverted_iff_order_one_witness :
  markerFills (surface (renderEffect (sceneProps path) (Some (square 1000))
                                     (scene [spotB; spotA])))
  = map (fun s => fst (markerColors
                         (if (Hotspot.id s =? 1)%Z then inverted else standard)))
        (sortBy compareById [spotB; spotA]).
Proof.
  refine (proj1 (proj2 (path_marker_inverted_iff_order_one (sceneProps path)
            (square 1000) (scene [spotB; spotA]) sceneCanvas 1%positive
            [spotB; spotA] _ _ _ _ _ _))).
  - reflexivity.
  - simpl. discriminate.
  - reflexivity.
  - reflexivity.
  - reflexivity.
  - simpl. discriminate.
Defined.

(** The path scenario: points of order 1 and 2 on a 1000×1000 surface give an
    inverted marker, a standard marker and one dashed segment between them. *)
Example scenario_path :
  let bm := surface (renderEffect (sceneProps path) (Some (square 1000))
                                  (scene [spotA; spotB])) in
  markerFills bm = [pink500; white] /\
  markerLabels bm = [("1"%string, white); ("2"%string, pink500)] /\
  map segments (dashedStrokes bm) = [1%nat].
Proof. cbn zeta. repeat split; vm_compute; reflexivity. Qed.

(** ** Path mode: the polyline *)



(** ** Coordinate mapping *)

Lemma heat_anchors d l : flat_map anchors (map (heatSpot d) l) = map (pixelOf d) l.
Proof. rewrite <- (flat_map_single (pixelOf d)). now apply flat_map_map_pointwise. Qed.

Lemma fog_anchors d l : flat_map anchors (map (fogHole d) l) = map (pixelOf d) l.
Proof. rewrite <- (flat_map_single (pixelOf d)). now apply flat_map_map_pointwise. Qed.

Lemma heat_gradientCentres d l :
  flat_map gradientCentres (map (heatSpot d) l)
  = flat_map (fun s => [pixelOf d s; pixelOf d s]) l.
Proof. now apply flat_map_map_pointwise. Qed.

Lemma fog_gradientCentres d l :
  flat_map gradientCentres (map (fogHole d) l)
  = flat_map (fun s => [pixelOf d s; pixelOf d s]) l.
Proof. now apply flat_map_map_pointwise. Qed.

Lemma marker_gradientCentres d l :
  flat_map gradientCentres (flat_map (pathMarker d) l) = [].
Proof.
  rewrite (flat_map_pointwise _ _ (fun _ => [])); [apply flat_map_nil|].
  intros s. unfold pathMarker, pixelOf. destruct (Hotspot.id s =? 1)%Z; reflexivity.
Qed.

(** C5: whatever the mode, every shape of a render is placed at
    ((x/100) × width, (y/100) × height) of its point: arc centres and
    gradient centres in heatmap and fog-map mode; in path mode the vertices of
    the polyline and the centres of the marker and of its border, the number
    sitting 2 pixels below that position.  x = 0, y = 0 is the origin,
    x = 100, y = 100 the bottom-right corner and x = 50, y = 50 the centre of
    the surface, whatever its size. *)
Theorem pixel_position_of_every_point props d w cv r arr :
  canvasRef w = Some cv -> Canvas.contextMode cv <> ctx_other ->
  hotspots props = Some r -> heap w !! r = Some arr ->
  arr <> [] ->
  let bm := surface (renderEffect props (Some d) w) in
  let sorted := sortBy compareById arr in
  (forall s, pixelOf d s = ((Hotspot.x s / 100) * num (Dimensions.width d),
                            (Hotspot.y s / 100) * num (Dimensions.height d))) /\
  flat_map anchors bm
    = match mode props with
      | heatmap | fogmap => map (pixelOf d) sorted
      | path =>
          map (pixelOf d) sorted ++
          flat_map (fun s => [pixelOf d s; pixelOf d s;
                              (fst (pixelOf d s), snd (pixelOf d s) + 2)]) sorted
      end /\
  flat_map gradientCentres bm
    = match mode props with
      | heatmap | fogmap => flat_map (fun s => [pixelOf d s; pixelOf d s]) sorted
      | path => []
      end /\
  (forall s, Hotspot.x s == 0 -> Hotspot.y s == 0 ->
     fst (pixelOf d s) == 0 /\ snd (pixelOf d s) == 0) /\
  (forall s, Hotspot.x s == 100 -> Hotspot.y s == 100 ->
     fst (pixelOf d s) == num (Dimensions.width d) /\
     snd (pixelOf d s) == num (Dimensions.height d)) /\
  (forall s, Hotspot.x s == 50 -> Hotspot.y s == 50 ->
     fst (pixelOf d s) == num (Dimensions.width d) / 2 /\
     snd (pixelOf d s) == num (Dimensions.height d) / 2).
Proof.
  intros Hc Hm Hr Ha Hne bm sorted. subst bm sorted. unfold surface.
  rewrite (renderEffect_canvas props d w cv r arr Hc Hm Hr Ha).
  cbn [from_option]. rewrite rendered_bitmap.
  destruct arr as [|a arr]; [congruence|].
  split; [reflexivity|]. split; [|split; [|split; [|split]]].
  - destruct (mode props); unfold modeOps, pathLine, fogFill; cbn [flat_map anchors app].
    + apply heat_anchors.
    + apply fog_anchors.
    + now rewrite polyline_vertices, marker_anchors.
  - destruct (mode props); unfold modeOps, pathLine, fogFill;
      cbn [flat_map gradientCentres app].
    + apply heat_gradientCentres.
    + apply fog_gradientCentres.
    + apply marker_gradientCentres.
  - intros s Hx Hy. unfold pixelOf. cbn [fst snd]. rewrite Hx, Hy. split; field.
  - intros s Hx Hy. unfold pixelOf. cbn [fst snd]. rewrite Hx, Hy. split; field.
  - intros s Hx Hy. unfold pixelOf. cbn [fst snd]. rewrite Hx, Hy. split; field.
Qed.

Lemma pixel_position_of_every_point_witness :
  flat_map anchors (surface (renderEffect (sceneProps fogmap) (Some (square 1000))
                                          (scene [spotB; spotA])))
  = map (pixelOf (square 1000)) (sortBy compareById [spotB; spotA]).
Proof.
  refine (proj1 (proj2 (pixel_position_of_every_point (sceneProps fogmap)
            (square 1000) (scene [spotB; spotA]) sceneCanvas 1%positive
            [spotB; spotA] _ _ _ _ _))).
  - reflexivity.
  - simpl. discriminate.
  - reflexivity.
  - reflexivity.
  - simpl. discriminate.
Defined.

(** The centre of an 800×600 and of a 4000×3000 surface, and the scenario of
    the two markers on a 1000×1000 surface. *)
Example centre_800_600 :
  let c := pixelOf (Dimensions.mk 800 600) (Hotspot.mk 1 50 50 0.5 None) in
  Qred (fst c) = 400 /\ Qred (snd c) = 300.
Proof. split; reflexivity. Qed.

Example centre_4000_3000 :
  let c := pixelOf (Dimensions.mk 4000 3000) (Hotspot.mk 1 50 50 0.5 None) in
  Qred (fst c) = 2000 /\ Qred (snd c) = 1500.
Proof. split; reflexivity. Qed.

Example scenario_markers :
  map (fun c => (Qred (fst c), Qred (snd c)))
      (map (pixelOf (square 1000)) (sortBy compareById [spotB; spotA]))
  = [(100, 100); (900, 900)].
Proof. reflexivity. Qed.

(** ** Heatmap mode: the radial falloff *)

Lemma clamp_is_max_min i : Qmax 0.3 (Qmin 0.9 i) == clamp 0.3 0.9 i.
Proof.
  unfold clamp.
  destruct (Qlt_le_dec i 0.3) as [Hlo|Hlo]; [|destruct (Qlt_le_dec 0.9 i) as [Hhi|Hhi]].
  - rewrite Q.min_r by lra. apply Q.max_l. lra.
  - rewrite Q.min_l by lra. apply Q.max_r. lra.
  - rewrite Q.min_r by lra. apply Q.max_r. exact Hlo.
Qed.

Lemma clamp_bounds i : 0.3 <= clamp 0.3 0.9 i <= 0.9.
Proof.
  unfold clamp.
  destruct (Qlt_le_dec i 0.3); [lra|]. destruct (Qlt_le_dec 0.9 i); lra.
Qed.

Lemma heat_radialFills d l :
  radialFills (map (heatSpot d) l)
  = map (fun s =>
           (Qmin (num (Dimensions.width d)) (num (Dimensions.height d)) * 0.12,
            {| x0 := fst (pixelOf d s); y0 := snd (pixelOf d s); r0 := 0;
               x1 := fst (pixelOf d s); y1 := snd (pixelOf d s);
               r1 := Qmin (num (Dimensions.width d)) (num (Dimensions.height d)) * 0.12;
               colorStops := heatStops (Qmax 0.3 (Qmin 0.9 (Hotspot.intensity s))) |})) l.
Proof.
  unfold radialFills. rewrite <- (flat_map_single (fun s => (_, _))).
  now apply flat_map_map_pointwise.
Qed.

(** C6: in heatmap mode every point, taken in ascending order, is one filled
    arc whose radius is 0.12 × min(width, height), painted with a radial
    gradient from radius 0 to that radius around the point's pixel position.
    The centre stop is red at an alpha equal to the intensity clamped to
    [0.3, 0.9]; the stops at 0.4 and 0.7 are orange and yellow at 0.8 and 0.5
    of that alpha, each strictly lower than the one before; the stop at the
    edge has alpha 0. *)
Theorem heatmap_radial_falloff props d w cv r arr :
  canvasRef w = Some cv -> Canvas.contextMode cv <> ctx_other ->
  hotspots props = Some r -> heap w !! r = Some arr ->
  mode props = heatmap -> arr <> [] ->
  Forall2 (fun s '(radius, g) =>
      radius == 0.12 * Qmin (num (Dimensions.width d)) (num (Dimensions.height d)) /\
      r0 g = 0 /\ r1 g = radius /\
      (x0 g, y0 g) = pixelOf d s /\ (x1 g, y1 g) = pixelOf d s /\
      exists a,
        a == clamp 0.3 0.9 (Hotspot.intensity s) /\
        0.3 <= a <= 0.9 /\
        colorStops g = [(0, rgba 255 0 0 a); (0.4, rgba 255 165 0 (a * 0.8));
                        (0.7, rgba 255 255 0 (a * 0.5)); (1, rgba 255 255 255 0)] /\
        a * 0.8 < a /\ a * 0.5 < a * 0.8 /\ 0 < a * 0.5)
    (sortBy compareById arr)
    (radialFills (surface (renderEffect props (Some d) w))).
Proof.
  intros Hc Hm Hr Ha Hmode Hne. unfold surface.
  rewrite (renderEffect_canvas props d w cv r arr Hc Hm Hr Ha), Hmode.
  cbn [from_option]. rewrite rendered_bitmap.
  destruct arr as [|a0 arr]; [congruence|].
  change (radialFills (ClearRect ?x ?y ?w ?h :: ?l)) with (radialFills l).
  cbn [modeOps]. rewrite heat_radialFills.
  apply Forall2_fmap_r, Forall_Forall2_diag, List.Forall_forall. intros s _.
  cbn [x0 y0 r0 x1 y1 r1 colorStops].
  split; [ring|]. repeat (split; [reflexivity|]).
  exists (Qmax 0.3 (Qmin 0.9 (Hotspot.intensity s))).
  pose proof (clamp_is_max_min (Hotspot.intensity s)) as Heq.
  pose proof (clamp_bounds (Hotspot.intensity s)) as Hb.
  split; [exact Heq|]. split; [rewrite Heq; exact Hb|]. split; [reflexivity|].
  rewrite <- Heq in Hb. repeat split; lra.
Qed.

Lemma heatmap_radial_falloff_witness :
  Forall2 (fun s '(radius, g) =>
      radius == 0.12 * Qmin (num 1000) (num 1000) /\
      r0 g = 0 /\ r1 g = radius /\
      (x0 g, y0 g) = pixelOf (square 1000) s /\ (x1 g, y1 g) = pixelOf (square 1000) s /\
      exists a,
        a == clamp 0.3 0.9 (Hotspot.intensity s) /\
        0.3 <= a <= 0.9 /\
        colorStops g = [(0, rgba 255 0 0 a); (0.4, rgba 255 165 0 (a * 0.8));
                        (0.7, rgba 255 255 0 (a * 0.5)); (1, rgba 255 255 255 0)] /\
        a * 0.8 < a /\ a * 0.5 < a * 0.8 /\ 0 < a * 0.5)
    (sortBy compareById [spotB; spotA])
    (radialFills (surface (renderEffect (sceneProps heatmap) (Some (square 1000))
                                        (scene [spotB; spotA])))).
Proof.
  apply (heatmap_radial_falloff (sceneProps heatmap) (square 1000)
           (scene [spotB; spotA]) sceneCanvas 1%positive [spotB; spotA]).
  - reflexivity.
  - simpl. discriminate.
  - reflexivity.
  - reflexivity.
  - reflexivity.
  - simpl. discriminate.
Defined.

(** * Further properties of the component *)

(** ** The two resolver paths *)

(** For a decoded image with two positive sides the inspection path and the
    load notification store the same metrics, whatever was stored before;
    a reading of width 0 is discarded by both. *)
Theorem resolver_paths_agree img dims :
  complete img = true ->
  ((0 < naturalWidth img)%N -> (0 < naturalHeight img)%N ->
     cachedImageEffect (Some img) dims = onImageLoad img dims /\
     onImageLoad img dims
       = Some (Dimensions.mk (naturalWidth img) (naturalHeight img))) /\
  (naturalWidth img = 0%N ->
     cachedImageEffect (Some img) dims = dims /\ onImageLoad img dims = dims).
Proof.
  intros Hc. unfold cachedImageEffect, onImageLoad. rewrite Hc. split.
  - intros Hw Hh. apply N.ltb_lt in Hw, Hh. now rewrite Hw, Hh.
  - intros ->. split; reflexivity.
Qed.

Lemma resolver_paths_agree_witness :
  cachedImageEffect (Some {| complete := true; naturalWidth := 800;
                             naturalHeight := 600 |}) None
  = onImageLoad {| complete := true; naturalWidth := 800; naturalHeight := 600 |} None.
Proof.
  refine (proj1 (proj1 (resolver_paths_agree
            {| complete := true; naturalWidth := 800; naturalHeight := 600 |} None _)
            _ _)).
  - reflexivity.
  - reflexivity.
  - reflexivity.
Defined.

(** Metrics stored through load notifications alone are never degenerate:
    starting from the initial [null], after any sequence of load events the
    stored metrics, if any, have a positive width and a positive height. *)
Theorem load_events_keep_metrics_positive (events : list HTMLImageElement) :
  positiveMetrics (fold_left (fun dims img => onImageLoad img dims) events None).
Proof.
  assert (forall dims, positiveMetrics dims ->
            positiveMetrics (fold_left (fun dims img => onImageLoad img dims) events dims))
    as H; [|now apply H].
  induction events as [|img events IH]; intros dims Hd; [exact Hd|].
  cbn [fold_left]. now apply IH, onImageLoad_positive.
Qed.

(** ** Renders that do not run *)

(** Without a canvas, without metrics, or on a canvas that cannot give a 2D
    context, the effect leaves the world as it is: nothing is resized,
    cleared, drawn or allocated. *)
Theorem render_skipped props dims w :
  canvasRef w = None \/ dims = None \/
  (exists cv, canvasRef w = Some cv /\ Canvas.contextMode cv = ctx_other) ->
  renderEffect props dims w = w.
Proof.
  intros [Hc | [-> | (cv & Hc & Hm)]]; unfold renderEffect.
  - now rewrite Hc.
  - now destruct (canvasRef w).
  - rewrite Hc. destruct dims; [|reflexivity].
    unfold getContext2d. now rewrite Hm.
Qed.

Lemma render_skipped_witness :
  renderEffect (sceneProps heatmap) None (scene [spotA; spotB]) = scene [spotA; spotB].
Proof.
  apply (render_skipped (sceneProps heatmap) None (scene [spotA; spotB])).
  right. left. reflexivity.
Defined.

(** ** Canvas size *)

Lemma drawMode_size m l cv :
  Canvas.width (drawMode m l cv) = Canvas.width cv /\
  Canvas.height (drawMode m l cv) = Canvas.height cv.
Proof.
  set (Inv := fun c => Canvas.width c = Canvas.width cv /\
                       Canvas.height c = Canvas.height cv).
  change (Inv (drawMode m l cv)).
  assert (Hctx : forall f c, Inv c -> Inv (onCtx f c)) by (intros f c H; exact H).
  assert (Hemit : forall op c, Inv c -> Inv (emit op c)) by (intros op c H; exact H).
  assert (H0 : Inv cv) by (split; reflexivity).
  destruct m; unfold drawMode, seq, when; cbn [mode_eqb]; unfold skip.
  - unfold renderHeatmap, seq, set_globalCompositeOperation at 1. apply Hctx.
    apply forEach_preserves; [|exact H0].
    intros a [? ? ? [] ?] H. exact H.
  - unfold renderFogmap, seq, set_globalCompositeOperation at 1. apply Hctx.
    apply forEach_preserves; [|exact H0].
    intros a [? ? ? [] ?] H. exact H.
  - unfold renderPath, seq.
    apply forEach_preserves. { intros a [? ? ? [] ?] H. exact H. }
    unfold setLineDash at 1, stroke. apply Hctx, Hemit. unfold forEachIdx.
    apply forEachFrom_preserves; [|exact H0].
    intros a idx [? ? ? [] ?] H. destruct idx; exact H.
Qed.

(** Every render that runs leaves the canvas at exactly the resolved size,
    with a 2D context, in every mode and for every point list. *)
Theorem canvas_matches_metrics props d w cv r arr :
  canvasRef w = Some cv -> Canvas.contextMode cv <> ctx_other ->
  hotspots props = Some r -> heap w !! r = Some arr ->
  exists cv',
    canvasRef (renderEffect props (Some d) w) = Some cv' /\
    Canvas.width cv' = Dimensions.width d /\
    Canvas.height cv' = Dimensions.height d /\
    Canvas.contextMode cv' = ctx_2d.
Proof.
  intros Hc Hm Hr Ha. eexists. split; [now apply (renderEffect_canvas props d w cv r arr)|].
  split; [|split; [|apply rendered_contextMode]].
  - destruct arr; [reflexivity|]. apply (drawMode_size _ _ (blank d)).
  - destruct arr; [reflexivity|]. apply (drawMode_size _ _ (blank d)).
Qed.

Lemma canvas_matches_metrics_witness :
  exists cv',
    canvasRef (renderEffect (sceneProps path) (Some (Dimensions.mk 800 600))
                            (scene [spotB; spotA])) = Some cv' /\
    Canvas.width cv' = 800%N /\ Canvas.height cv' = 600%N /\
    Canvas.contextMode cv' = ctx_2d.
Proof.
  apply (canvas_matches_metrics (sceneProps path) (Dimensions.mk 800 600)
           (scene [spotB; spotA]) sceneCanvas 1%positive [spotB; spotA]).
  - reflexivity.
  - simpl. discriminate.
  - reflexivity.
  - reflexivity.
Defined.

(** ** Fog-map mode: fill and holes *)

(** A fog-map render of a non-empty set is, after the clear, one fill of the
    whole surface with rgba(15, 23, 42, 0.92) under 'source-over', then one
    erasing arc per point in ascending order, of radius 0.14 × min(width,
    height) around the point's pixel position, whose gradient goes from alpha
    1 at the centre through 0.5 at mid-radius to 0 at the edge. *)
Theorem fogmap_fill_and_holes props d w cv r arr :
  canvasRef w = Some cv -> Canvas.contextMode cv <> ctx_other ->
  hotspots props = Some r -> heap w !! r = Some arr ->
  mode props = fogmap -> arr <> [] ->
  exists holes,
    surface (renderEffect props (Some d) w)
    = ClearRect 0 0 (num (Dimensions.width d)) (num (Dimensions.height d))
      :: FillRect 0 0 (num (Dimensions.width d)) (num (Dimensions.height d))
                  source_over (Solid (rgba 15 23 42 0.92)) (transparentBlack, 0)
      :: holes /\
    Forall2 (fun s hole => exists radius,
        radius == 0.14 * Qmin (num (Dimensions.width d)) (num (Dimensions.height d)) /\
        hole = Fill [Arc (fst (pixelOf d s)) (snd (pixelOf d s)) radius 0 (2 * Math_PI)]
                 destination_out
                 (Gradient {| x0 := fst (pixelOf d s); y0 := snd (pixelOf d s); r0 := 0;
                              x1 := fst (pixelOf d s); y1 := snd (pixelOf d s);
                              r1 := radius;
                              colorStops := [(0, rgba 0 0 0 1); (0.5, rgba 0 0 0 0.5);
                                             (1, rgba 0 0 0 0)] |})
                 (transparentBlack, 0))
      (sortBy compareById arr) holes.
Proof.
  intros Hc Hm Hr Ha Hmode Hne. unfold surface.
  rewrite (renderEffect_canvas props d w cv r arr Hc Hm Hr Ha), Hmode.
  cbn [from_option]. rewrite rendered_bitmap.
  destruct arr as [|a0 arr]; [congruence|].
  eexists. split; [reflexivity|].
  apply Forall2_fmap_r, Forall_Forall2_diag, List.Forall_forall. intros s _.
  eexists. split; [|reflexivity]. ring.
Qed.

Lemma fogmap_fill_and_holes_witness :
  exists holes,
    surface (renderEffect (sceneProps fogmap) (Some (square 1000)) (scene [spotB; spotA]))
    = ClearRect 0 0 (num 1000) (num 1000)
      :: FillRect 0 0 (num 1000) (num 1000)
                  source_over (Solid (rgba 15 23 42 0.92)) (transparentBlack, 0)
      :: holes /\
    length holes = 2%nat.
Proof.
  destruct (fogmap_fill_and_holes (sceneProps fogmap) (square 1000)
              (scene [spotB; spotA]) sceneCanvas 1%positive [spotB; spotA])
    as (holes & Hs & Hh).
  - reflexivity.
  - simpl. discriminate.
  - reflexivity.
  - reflexivity.
  - reflexivity.
  - simpl. discriminate.
  - exists holes. split; [exact Hs|].
    apply Forall2_length in Hh. rewrite <- Hh. reflexivity.
Defined.

(** ** Pixels of a fog map and of a heatmap *)

Lemma product_cons e l : product (e :: l) = e * product l.
Proof. reflexivity. Qed.

Lemma product_bounds l :
  Forall (fun e => 0 <= e <= 1) l -> 0 <= product l <= 1.
Proof.
  induction 1 as [|e l He Hl IH]; [cbn; lra|]. rewrite product_cons. nra.
Qed.

Lemma product_zero l : Exists (fun e => e == 0) l -> product l == 0.
Proof.
  induction 1 as [e l He | e l Hl IH]; rewrite product_cons.
  - rewrite He. ring.
  - rewrite IH. ring.
Qed.

Lemma product_ones l : Forall (fun e => e == 1) l -> product l == 1.
Proof.
  induction 1 as [|e l He Hl IH]; [reflexivity|].
  rewrite product_cons, He, IH. ring.
Qed.

Lemma product_le_each l e :
  Forall (fun e => 0 <= e <= 1) l -> In e l -> product l <= e.
Proof.
  induction 1 as [|e' l He Hl IH]; intros Hin; [destruct Hin|].
  pose proof (product_bounds l Hl) as Hb.
  rewrite product_cons. destruct Hin as [-> | Hin].
  - nra.
  - specialize (IH Hin). nra.
Qed.

Lemma fog_fold shade p ch d l dst :
  In ch channels ->
  ch (fold_left (paint shade p) (map (fogHole d) l) dst)
  == ch dst * product (map (fun s => 1 - pa (shade (fogHole d s) p)) l).
Proof.
  intros Hch. revert dst. induction l as [|s l IH]; intros dst.
  - cbn. ring.
  - cbn [map fold_left]. rewrite IH, product_cons.
    rewrite (paint_composite shade p destination_out) by reflexivity.
    destruct Hch as [<-|[<-|[<-|[<-|[]]]]]; cbn; ring.
Qed.

Lemma heat_fold shade p ch d l dst :
  In ch channels ->
  1 - ch (fold_left (paint shade p) (map (heatSpot d) l) dst)
  == (1 - ch dst) * product (map (fun s => 1 - ch (shade (heatSpot d s) p)) l).
Proof.
  intros Hch. revert dst. induction l as [|s l IH]; intros dst.
  - cbn. ring.
  - cbn [map fold_left]. rewrite IH, product_cons.
    rewrite (paint_composite shade p screen) by reflexivity.
    destruct Hch as [<-|[<-|[<-|[<-|[]]]]]; cbn; ring.
Qed.

(** What shows through the fog: at every pixel, each channel of a fog-map
    render is the fog's own value there times the product, over the points,
    of one minus the alpha of the point's hole.  So with hole alphas between
    0 and 1 no pixel is more opaque than the fog fill; a pixel that one hole
    covers with alpha 1 is fully erased, whatever the other holes do; and a
    pixel that no hole touches keeps the fog. *)
Theorem fogmap_pixel_is_fog_times_holes shade props d w cv r arr p ch :
  canvasRef w = Some cv -> Canvas.contextMode cv <> ctx_other ->
  hotspots props = Some r -> heap w !! r = Some arr ->
  mode props = fogmap -> arr <> [] ->
  In ch channels ->
  let kept := map (fun s => 1 - pa (shade (fogHole d s) p)) (sortBy compareById arr) in
  let pixel := pixelAt shade (surface (renderEffect props (Some d) w)) p in
  ch pixel == ch (shade (fogFill d) p) * product kept /\
  (Forall (fun e => 0 <= e <= 1) kept -> 0 <= ch (shade (fogFill d) p) ->
     0 <= ch pixel <= ch (shade (fogFill d) p)) /\
  (Exists (fun e => e == 0) kept -> ch pixel == 0) /\
  (Forall (fun e => e == 1) kept -> ch pixel == ch (shade (fogFill d) p)).
Proof.
  intros Hc Hm Hr Ha Hmode Hne Hch kept pixel.
  assert (ch pixel == ch (shade (fogFill d) p) * product kept) as Heq.
  { subst pixel kept. unfold surface.
    rewrite (renderEffect_canvas props d w cv r arr Hc Hm Hr Ha), Hmode.
    cbn [from_option]. rewrite rendered_bitmap, pixelAt_cleared.
    destruct arr as [|a0 arr]; [congruence|].
    unfold pixelAt. cbn [modeOps fold_left]. rewrite (fog_fold shade p ch) by exact Hch.
    rewrite (paint_composite shade p source_over) by reflexivity.
    destruct Hch as [<-|[<-|[<-|[<-|[]]]]]; cbn; ring. }
  split; [exact Heq|]. split; [|split].
  - intros Hk Hf. pose proof (product_bounds kept Hk). rewrite Heq. nra.
  - intros Hk. rewrite Heq, (product_zero kept Hk). ring.
  - intros Hk. rewrite Heq, (product_ones kept Hk). ring.
Qed.

Lemma fogmap_pixel_is_fog_times_holes_witness :
  let shade := fun (op : DrawOp) (_ : Z * Z) =>
    match op with
    | FillRect _ _ _ _ _ _ _ => px 0 0 0 (92 # 100)
    | _ => px 0 0 0 (1 # 2)
    end in
  pa (pixelAt shade (surface (renderEffect (sceneProps fogmap) (Some (square 1000))
                                           (scene [spotA; spotB]))) (5, 5)%Z)
  == (92 # 100) * ((1 - (1 # 2)) * ((1 - (1 # 2)) * 1)).
Proof.
  cbn zeta.
  refine (proj1 (fogmap_pixel_is_fog_times_holes _ (sceneProps fogmap) (square 1000)
            (scene [spotA; spotB]) sceneCanvas 1%positive [spotA; spotB] (5, 5)%Z pa
            _ _ _ _ _ _ _)).
  - reflexivity.
  - simpl. discriminate.
  - reflexivity.
  - reflexivity.
  - reflexivity.
  - simpl. discriminate.
  - simpl. tauto.
Defined.

(** Overlapping heat reinforces: at every pixel, one minus each channel of a
    heatmap render is the product, over the points, of one minus the point's
    own contribution.  So with contributions between 0 and 1 the channel
    stays between 0 and 1 and is at least every single contribution. *)
Theorem heatmap_pixel_reinforces shade props d w cv r arr p ch :
  canvasRef w = Some cv -> Canvas.contextMode cv <> ctx_other ->
  hotspots props = Some r -> heap w !! r = Some arr ->
  mode props = heatmap -> arr <> [] ->
  In ch channels ->
  let rest := map (fun s => 1 - ch (shade (heatSpot d s) p)) (sortBy compareById arr) in
  let pixel := pixelAt shade (surface (renderEffect props (Some d) w)) p in
  1 - ch pixel == product rest /\
  (Forall (fun e => 0 <= e <= 1) rest ->
     0 <= ch pixel <= 1 /\
     forall s, In s arr -> ch (shade (heatSpot d s) p) <= ch pixel).
Proof.
  intros Hc Hm Hr Ha Hmode Hne Hch rest pixel.
  assert (1 - ch pixel == product rest) as Heq.
  { subst pixel rest. unfold surface.
    rewrite (renderEffect_canvas props d w cv r arr Hc Hm Hr Ha), Hmode.
    cbn [from_option]. rewrite rendered_bitmap, pixelAt_cleared.
    destruct arr as [|a0 arr]; [congruence|].
    unfold pixelAt. cbn [modeOps]. rewrite (heat_fold shade p ch) by exact Hch.
    destruct Hch as [<-|[<-|[<-|[<-|[]]]]]; cbn; ring. }
  split; [exact Heq|]. intros Hrest.
  pose proof (product_bounds rest Hrest) as Hb. split; [lra|].
  intros s Hs.
  assert (product rest <= 1 - ch (shade (heatSpot d s) p)); [|lra].
  apply product_le_each; [exact Hrest|]. subst rest.
  apply (in_map (fun s => 1 - ch (shade (heatSpot d s) p))).
  eapply Permutation_in; [symmetry; apply sortBy_perm | exact Hs].
Qed.

Lemma heatmap_pixel_reinforces_witness :
  1 - pr (pixelAt (fun _ _ => px (1 # 2) (1 # 3) (1 # 4) (1 # 2))
            (surface (renderEffect (sceneProps heatmap) (Some (square 1000))
                                   (scene [spotA; spotB]))) (5, 5)%Z)
  == (1 - (1 # 2)) * ((1 - (1 # 2)) * 1).
Proof.
  refine (proj1 (heatmap_pixel_reinforces (fun _ _ => px (1 # 2) (1 # 3) (1 # 4) (1 # 2))
            (sceneProps heatmap) (square 1000)
            (scene [spotA; spotB]) sceneCanvas 1%positive [spotA; spotB] (5, 5)%Z pr
            _ _ _ _ _ _ _)).
  - reflexivity.
  - simpl. discriminate.
  - reflexivity.
  - reflexivity.
  - reflexivity.
  - simpl. discriminate.
  - simpl. tauto.
Defined.

(** ** Path mode: layers, sizes and labels *)

Lemma marker_count d l : length (flat_map (pathMarker d) l) = (3 * length l)%nat.
Proof.
  induction l as [|s l IH]; [reflexivity|].
  cbn [flat_map]. rewrite length_app, IH.
  unfold pathMarker, pixelOf, markerColors.
  destruct (Hotspot.id s =? 1)%Z; cbn [length]; lia.
Qed.

(** A path render paints the dashed line first and the markers over it, three
    calls per point in ascending order: the filled circle with a blurred
    shadow, its solid 3-pixel border and the number.  The line is at least 2
    pixels wide and the circle radius at least 12, both growing with the
    surface width; the number is set in bold at a size equal to the radius. *)
Theorem path_line_under_markers props d w cv r arr :
  canvasRef w = Some cv -> Canvas.contextMode cv <> ctx_other ->
  hotspots props = Some r -> heap w !! r = Some arr ->
  mode props = path -> arr <> [] ->
  exists line lineWidth markers,
    surface (renderEffect props (Some d) w)
    = ClearRect 0 0 (num (Dimensions.width d)) (num (Dimensions.height d))
      :: Stroke line source_over (Solid (rgba 236 72 153 0.8)) lineWidth [15; 10]
                (transparentBlack, 0)
      :: concat markers /\
    2 <= lineWidth /\ lineWidth == Qmax 2 (0.003 * num (Dimensions.width d)) /\
    length (surface (renderEffect props (Some d) w)) = (2 + 3 * length arr)%nat /\
    Forall2 (fun s ops => exists radius size fillColor textColor,
        12 <= radius /\ radius == Qmax 12 (0.015 * num (Dimensions.width d)) /\
        size == radius /\
        ops = [ Fill [Arc (fst (pixelOf d s)) (snd (pixelOf d s)) radius 0 (2 * Math_PI)]
                     source_over (Solid fillColor) (rgba 0 0 0 0.5, 10);
                Stroke [Arc (fst (pixelOf d s)) (snd (pixelOf d s)) radius 0 (2 * Math_PI)]
                       source_over (Solid pink500) 3 [] (rgba 0 0 0 0.5, 0);
                FillText (pretty (Hotspot.id s)) (fst (pixelOf d s))
                         (snd (pixelOf d s) + 2) source_over (Solid textColor)
                         {| bold := true; sizePx := size; family := "Inter, sans-serif" |}
                         align_center baseline_middle (rgba 0 0 0 0.5, 0) ])
      (sortBy compareById arr) markers.
Proof.
  intros Hc Hm Hr Ha Hmode Hne.
  rewrite (path_surface props d w cv r arr Hc Hm Hr Ha Hmode Hne).
  exists (polyline d (sortBy compareById arr)),
         (Qmax 2 (num (Dimensions.width d) * 0.003)),
         (map (pathMarker d) (sortBy compareById arr)).
  split; [now rewrite flat_map_concat_map|].
  split; [apply Q.le_max_l|]. split; [now rewrite (Qmult_comm 0.003)|]. split.
  - cbn [length]. rewrite marker_count, sortBy_length. lia.
  - apply Forall2_fmap_r, Forall_Forall2_diag, List.Forall_forall. intros s _.
    exists (Qmax 12 (num (Dimensions.width d) * 0.015)),
           (Qmax 12 (Qmax 12 (num (Dimensions.width d) * 0.015))).
    unfold pathMarker, pixelOf.
    destruct (Hotspot.id s =? 1)%Z; cbn [markerColors fst snd]; eexists _, _;
      (split; [apply Q.le_max_l|]);
      (split; [now rewrite (Qmult_comm 0.015)|]);
      (split; [apply Q.max_r, Q.le_max_l | reflexivity]).
Qed.

Lemma path_line_under_markers_witness :
  length (surface (renderEffect (sceneProps path) (Some (square 1000))
                                (scene [spotB; spotA]))) = 8%nat.
Proof.
  destruct (path_line_under_markers (sceneProps path) (square 1000)
              (scene [spotB; spotA]) sceneCanvas 1%positive [spotB; spotA])
    as (line & lw & markers & _ & _ & _ & Hlen & _).
  - reflexivity.
  - simpl. discriminate.
  - reflexivity.
  - reflexivity.
  - reflexivity.
  - simpl. discriminate.
  - exact Hlen.
Defined.

Lemma forEach_cons {A} (body : A -> Cmd) a l cv :
  forEach body (a :: l) cv = forEach body l (body a cv).
Proof. reflexivity. Qed.

(** The path block, from any context state and for any points, ends with the
    dash pattern back to solid and with the compositing mode it started
    with; when it drew at least one marker the shadow blur is back to 0. *)
Theorem path_block_resets_dash_and_blur l cv :
  lineDash (Canvas.ctx (renderPath l cv)) = [] /\
  globalCompositeOperation (Canvas.ctx (renderPath l cv))
    = globalCompositeOperation (Canvas.ctx cv) /\
  (l <> [] -> shadowBlur (Canvas.ctx (renderPath l cv)) = 0).
Proof.
  unfold renderPath, seq. split; [|split].
  - apply (forEach_preserves (fun c => lineDash (Canvas.ctx c) = [])); [|reflexivity].
    intros a [? ? ? [] ?] H. exact H.
  - apply (forEach_preserves
             (fun c => globalCompositeOperation (Canvas.ctx c)
                       = globalCompositeOperation (Canvas.ctx cv))).
    { intros a [? ? ? [] ?] H. exact H. }
    change (globalCompositeOperation (Canvas.ctx (setLineDash [] (stroke ?c))))
      with (globalCompositeOperation (Canvas.ctx c)).
    unfold forEachIdx.
    apply (forEachFrom_preserves
             (fun c => globalCompositeOperation (Canvas.ctx c)
                       = globalCompositeOperation (Canvas.ctx cv))); [|reflexivity].
    intros a idx [? ? ? [] ?] H. destruct idx; exact H.
  - intros Hne. destruct l as [|a l]; [congruence|].
    match goal with
    | |- shadowBlur (Canvas.ctx (forEach ?body (a :: l) ?c)) = 0 =>
        assert (forall b c', shadowBlur (Canvas.ctx (body b c')) = 0) as Hstep
          by (intros b c'; open_canvas c'; reflexivity);
        rewrite (forEach_cons body a l c);
        apply (forEach_preserves (fun c0 => shadowBlur (Canvas.ctx c0) = 0));
          [intros b c' _; apply Hstep | apply Hstep]
    end.
Qed.

Lemma map_injective_NoDup {A B} (f : A -> B) (l : list A) :
  (forall x y, f x = f y -> x = y) -> List.NoDup l -> List.NoDup (map f l).
Proof.
  intros Hinj. induction 1 as [|a l Hnin Hnd IH]; cbn; constructor; [|exact IH].
  intros Hin. apply in_map_iff in Hin as (b & Hb & Hbl).
  apply Hinj in Hb. subst b. contradiction.
Qed.

(** With unique orders no two markers of a path render show the same
    number: the labels are the decimal orders, in ascending order, and they
    are pairwise different. *)
Theorem path_labels_are_distinct props d w cv r arr :
  canvasRef w = Some cv -> Canvas.contextMode cv <> ctx_other ->
  hotspots props = Some r -> heap w !! r = Some arr ->
  mode props = path -> arr <> [] ->
  List.NoDup (map Hotspot.id arr) ->
  map fst (markerLabels (surface (renderEffect props (Some d) w)))
    = map (fun s => pretty (Hotspot.id s)) (sortBy compareById arr) /\
  List.NoDup (map fst (markerLabels (surface (renderEffect props (Some d) w)))).
Proof.
  intros Hc Hm Hr Ha Hmode Hne Hnd.
  rewrite (path_surface props d w cv r arr Hc Hm Hr Ha Hmode Hne).
  change (markerLabels (?a :: ?b :: ?l)) with (markerLabels l).
  rewrite marker_labels, map_map. cbn [fst]. split; [reflexivity|].
  rewrite <- (map_map Hotspot.id pretty).
  apply map_injective_NoDup; [intros x y; apply (inj pretty)|].
  eapply Permutation.Permutation_NoDup; [|exact Hnd].
  apply Permutation_map. symmetry. apply sortBy_perm.
Qed.

Lemma path_labels_are_distinct_witness :
  List.NoDup (map fst (markerLabels
    (surface (renderEffect (sceneProps path) (Some (square 1000))
                           (scene [spotB; spotA]))))).
Proof.
  refine (proj2 (path_labels_are_distinct (sceneProps path) (square 1000)
            (scene [spotB; spotA]) sceneCanvas 1%positive [spotB; spotA]
            _ _ _ _ _ _ _)).
  - reflexivity.
  - simpl. discriminate.
  - reflexivity.
  - reflexivity.
  - reflexivity.
  - simpl. discriminate.
  - simpl. repeat constructor; simpl; intuition discriminate.
Defined.

(** ** Drawing order when orders repeat *)

Lemma insertBy_filter k a l :
  List.filter (fun s => (Hotspot.id s =? k)%Z) (insertBy compareById a l)
  = List.filter (fun s => (Hotspot.id s =? k)%Z) (a :: l).
Proof.
  induction l as [|b l IH]; [reflexivity|].
  cbn [insertBy]. unfold compareById at 1.
  destruct (Z.leb_spec (Hotspot.id a - Hotspot.id b) 0) as [Hab|Hab]; [reflexivity|].
  cbn [List.filter] in IH |- *. rewrite IH.
  destruct (Z.eqb_spec (Hotspot.id a) k), (Z.eqb_spec (Hotspot.id b) k);
    try reflexivity. lia.
Qed.

Lemma sortBy_stable_filter k l :
  List.filter (fun s => (Hotspot.id s =? k)%Z) (sortBy compareById l)
  = List.filter (fun s => (Hotspot.id s =? k)%Z) l.
Proof.
  induction l as [|a l IH]; [reflexivity|].
  cbn [sortBy fold_right]. rewrite insertBy_filter.
  cbn [List.filter]. fold (sortBy compareById l). now rewrite IH.
Qed.

(** Whatever the orders, repeated or not, a path render of N >= 1 points
    strokes one dashed line with N-1 segments through the pixel positions of
    all the points, each exactly once, in non-decreasing order; points of
    equal order are visited in the order of the input array. *)
Theorem path_polyline_with_repeated_orders props d w cv r arr :
  canvasRef w = Some cv -> Canvas.contextMode cv <> ctx_other ->
  hotspots props = Some r -> heap w !! r = Some arr ->
  mode props = path -> arr <> [] ->
  exists line visited,
    dashedStrokes (surface (renderEffect props (Some d) w)) = [line] /\
    flat_map vertex line = map (pixelOf d) visited /\
    segments line = (length arr - 1)%nat /\
    Permutation visited arr /\
    StronglySorted idLe visited /\
    forall k, List.filter (fun s => (Hotspot.id s =? k)%Z) visited
              = List.filter (fun s => (Hotspot.id s =? k)%Z) arr.
Proof.
  intros Hc Hm Hr Ha Hmode Hne.
  rewrite (path_surface props d w cv r arr Hc Hm Hr Ha Hmode Hne).
  exists (polyline d (sortBy compareById arr)), (sortBy compareById arr).
  split; [|split; [|split; [|split; [|split]]]].
  - unfold pathLine.
    change (dashedStrokes (?a :: Stroke ?p ?o ?s ?w [15; 10] ?sh :: ?l))
      with (p :: dashedStrokes l).
    now rewrite marker_dashedStrokes.
  - apply polyline_vertices.
  - pose proof (sortBy_length compareById arr) as Hlen.
    destruct (sortBy compareById arr) as [|s l] eqn:Hs.
    { apply sortBy_nil in Hs. congruence. }
    rewrite polyline_segments. cbn [length] in Hlen. lia.
  - apply sortBy_perm.
  - apply sortBy_sorted.
  - intros k. apply sortBy_stable_filter.
Qed.

Lemma path_polyline_with_repeated_orders_witness :
  exists line visited,
    dashedStrokes (surface (renderEffect (sceneProps path) (Some (square 1000))
                                         (scene [spotB; spotA; spotB]))) = [line] /\
    flat_map vertex line = map (pixelOf (square 1000)) visited /\
    segments line = 2%nat.
Proof.
  destruct (path_polyline_with_repeated_orders (sceneProps path) (square 1000)
              (scene [spotB; spotA; spotB]) sceneCanvas 1%positive [spotB; spotA; spotB])
    as (line & visited & H1 & H2 & H3 & _).
  - reflexivity.
  - simpl. discriminate.
  - reflexivity.
  - reflexivity.
  - reflexivity.
  - simpl. discriminate.
  - exists line, visited. repeat split; assumption.
Defined.

(** * App.tsx: the upload form *)

(** The analyse button is disabled exactly while an analysis is loading or
    when [handleAnalyze] would return without calling the service. *)
Theorem button_disabled_iff_nothing_to_run loading files context :
  analyzeDisabled loading files context
  = loading || negb (defined (handleAnalyzeCall files context)).
Proof.
  unfold analyzeDisabled, handleAnalyzeCall, isAB.
  destruct context as [c|]; [|now destruct loading].
  destruct loading, c, files as [|f0 [|f1 files]]; reflexivity.
Qed.

(** When the button reads 'Run Auto-Analysis' it is enabled and a click
    calls the service with the chosen context and with the first slot's file
    first; in an A/B test the second slot's file comes next. *)
Theorem run_text_means_ready loading files context :
  getButtonText loading files context = "Run Auto-Analysis"%string ->
  analyzeDisabled loading files context = false /\
  exists first valid c,
    arrayGet 0 files = Some first /\
    handleAnalyzeCall files context = Some (first :: valid, c) /\
    context = Some c /\
    (c = AB_TEST ->
     exists second rest, valid = second :: rest /\ arrayGet 1 files = Some second).
Proof.
  unfold getButtonText, analyzeDisabled, handleAnalyzeCall, isAB, arrayGet.
  destruct loading; [discriminate|].
  destruct context as [c|].
  - destruct c, files as [|[f0|] [|[f1|] files]]; cbn; try discriminate; intros _;
      (split; [reflexivity|]); eexists _, _, _;
      (split; [reflexivity|]); (split; [reflexivity|]); (split; [reflexivity|]);
      try discriminate.
    intros _. eexists _, _. split; reflexivity.
  - destruct files as [|[f0|] files]; cbn; discriminate.
Qed.

Lemma run_text_means_ready_witness :
  analyzeDisabled false [Some {| fileName := "a.png"; fileType := "image/png" |};
                         Some {| fileName := "b.png"; fileType := "image/png" |}]
                  (Some AB_TEST) = false.
Proof.
  refine (proj1 (run_text_means_ready false
            [Some {| fileName := "a.png"; fileType := "image/png" |};
             Some {| fileName := "b.png"; fileType := "image/png" |}]
            (Some AB_TEST) _)).
  reflexivity.
Defined.

Lemma arraySet_get {A} index (v : A) arr : arrayGet index (arraySet index v arr) = Some v.
Proof.
  revert arr. induction index as [|i IH]; intros [|a arr]; try reflexivity; apply IH.
Qed.

Lemma arraySet_get_other {A} index j (v : A) arr :
  j <> index -> arrayGet j (arraySet index v arr) = arrayGet j arr.
Proof.
  revert j arr. induction index as [|i IH]; intros [|j] [|a arr] Hj;
    try congruence; try reflexivity.
  - apply (IH j []). congruence.
  - apply (IH j arr). congruence.
Qed.

Lemma arraySet_length {A} index (v : A) arr :
  length (arraySet index v arr) = Nat.max (length arr) (S index).
Proof.
  revert arr. induction index as [|i IH]; intros [|a arr]; cbn [arraySet length].
  - reflexivity.
  - lia.
  - rewrite IH. cbn [length]. lia.
  - rewrite IH. lia.
Qed.

(** Choosing a file for a slot puts it in that slot and leaves every other
    slot as it was; the array grows, with empty slots, just enough to hold
    it.  A dialog closed without a file changes nothing. *)
Theorem handleFileChange_fills_slot f index files :
  arrayGet index (handleFileChange (Some f) index files) = Some f /\
  (forall j, j <> index ->
     arrayGet j (handleFileChange (Some f) index files) = arrayGet j files) /\
  length (handleFileChange (Some f) index files) = Nat.max (length files) (S index) /\
  handleFileChange None index files = files.
Proof.
  cbn [handleFileChange]. split; [apply arraySet_get|]. split.
  - intros j Hj. now apply arraySet_get_other.
  - split; [apply arraySet_length | reflexivity].
Qed.

(** The guards count slots, not files.  With the first slot empty and a
    second slot present (only image B was chosen), an A/B analysis is enabled
    and a click calls the service with fewer files than slots, while the
    button text still asks for both images. *)
Theorem ab_test_runs_with_image_b_only files :
  arrayGet 0 files = None -> (2 <= length files)%nat ->
  analyzeDisabled false files (Some AB_TEST) = false /\
  getButtonText false files (Some AB_TEST) = "Upload Both Images (A & B)"%string /\
  exists valid,
    handleAnalyzeCall files (Some AB_TEST) = Some (valid, AB_TEST) /\
    (length valid < length files)%nat.
Proof.
  unfold analyzeDisabled, getButtonText, handleAnalyzeCall, isAB, arrayGet.
  destruct files as [|[f0|] [|f1 files]]; cbn; intros H0 Hlen; try discriminate; try lia.
  split; [reflexivity|]. split; [reflexivity|].
  eexists. split; [reflexivity|].
  change (length (filterBoolean (f1 :: files)) < S (S (length files)))%nat.
  assert (forall l : list (option File), length (filterBoolean l) <= length l)%nat as Hle.
  { clear. unfold filterBoolean. induction l as [|[x|] l IH]; cbn in *; lia. }
  specialize (Hle (f1 :: files)). cbn [length] in Hle. lia.
Qed.

Lemma ab_test_runs_with_image_b_only_witness :
  analyzeDisabled false
    (handleFileChange (Some {| fileName := "b.png"; fileType := "image/png" |}) 1 [])
    (Some AB_TEST) = false.
Proof.
  refine (proj1 (ab_test_runs_with_image_b_only
            (handleFileChange (Some {| fileName := "b.png"; fileType := "image/png" |})
                              1 []) _ _)).
  - reflexivity.
  - simpl. lia.
Defined.

(** * services/geminiService.ts: the answer text and the data URL *)

Lemma stripPrefix_app p s : stripPrefix p (p ++ s) = Some s.
Proof.
  induction p as [|a p IH]; [now destruct s|].
  cbn [app stripPrefix]. now rewrite N.eqb_refl.
Qed.

Lemma stripPrefix_Some p s rest : stripPrefix p s = Some rest -> s = p ++ rest.
Proof.
  revert s. induction p as [|a p IH]; intros s H.
  - destruct s; cbn in H; injection H as <-; reflexivity.
  - destruct s as [|b s]; [discriminate|]. cbn [stripPrefix] in H.
    destruct (N.eqb_spec a b) as [->|]; [|discriminate].
    cbn [app]. f_equal. now apply IH.
Qed.

Lemma skipWhiteSpace_spec s :
  exists ws, s = ws ++ skipWhiteSpace s /\ Forall (fun u => isWhiteSpace u = true) ws.
Proof.
  induction s as [|c s (ws & Hs & Hws)]; [now exists []|].
  cbn [skipWhiteSpace]. destruct (isWhiteSpace c) eqn:Hc.
  - exists (c :: ws). split; [cbn [app]; now f_equal | now constructor].
  - now exists [].
Qed.

Lemma skipWhiteSpace_app ws c rest :
  Forall (fun u => isWhiteSpace u = true) ws -> isWhiteSpace c = false ->
  skipWhiteSpace (ws ++ c :: rest) = c :: rest.
Proof.
  intros Hws Hc. induction Hws as [|u ws Hu Hws IH]; cbn [app skipWhiteSpace].
  - now rewrite Hc.
  - now rewrite Hu.
Qed.

Lemma replaceTrailingFence_spec s :
  (exists body, s = body ++ fence /\ replaceTrailingFence s = body) \/
  (startsWith (rev fence) (rev s) = false /\ replaceTrailingFence s = s).
Proof.
  unfold replaceTrailingFence, startsWith.
  destruct (stripPrefix (rev fence) (rev s)) as [r|] eqn:Hr; cbn [defined].
  - left. exists (rev r). apply stripPrefix_Some in Hr.
    apply (f_equal (@rev N)) in Hr. rewrite rev_involutive, rev_app_distr in Hr.
    rewrite rev_involutive in Hr. subst s. split; [reflexivity|].
    rewrite length_app. cbn [fence length].
    replace (length (rev r) + 3 - 3)%nat with (length (rev r)) by lia.
    apply take_app_length.
  - right. split; reflexivity.
Qed.

Lemma replaceTrailingFence_app body : replaceTrailingFence (body ++ fence) = body.
Proof.
  destruct (replaceTrailingFence_spec (body ++ fence)) as [(b & Hb & ->)|[Hno _]].
  - now apply app_inv_tail in Hb.
  - unfold startsWith in Hno. now rewrite rev_app_distr, stripPrefix_app in Hno.
Qed.

Lemma stripPrefix_app_l p q s : stripPrefix (p ++ q) (p ++ s) = stripPrefix q s.
Proof.
  induction p as [|a p IH]; [reflexivity|].
  cbn [app stripPrefix]. now rewrite N.eqb_refl.
Qed.

Lemma replaceLeading_app p s : replaceLeading p (p ++ s) = skipWhiteSpace s.
Proof. unfold replaceLeading. now rewrite stripPrefix_app. Qed.

Lemma replaceLeading_other p s : stripPrefix p s = None -> replaceLeading p s = s.
Proof. unfold replaceLeading. now intros ->. Qed.

Lemma cleanResponseText_fenced s :
  cleanResponseText (Some (fence ++ s))
  = replaceTrailingFence
      (replaceLeading fence (replaceLeading (fence ++ jsonTag) (fence ++ s))).
Proof. reflexivity. Qed.

(** An answer wrapped in a Markdown fence is unwrapped: for a payload that
    starts with a character that is neither white space nor a backtick, the
    text ```json, any white space, the payload and a closing ``` at the very
    end clean to the payload, and so does the same with a bare ``` followed
    by at least one white-space character. *)
Theorem cleanResponseText_unwraps_fence ws c rest :
  Forall (fun u => isWhiteSpace u = true) ws ->
  isWhiteSpace c = false -> c <> backtick ->
  cleanResponseText (Some (fence ++ jsonTag ++ ws ++ (c :: rest) ++ fence)) = c :: rest /\
  (ws <> [] ->
   cleanResponseText (Some (fence ++ ws ++ (c :: rest) ++ fence)) = c :: rest).
Proof.
  intros Hws Hc Hbt.
  assert (replaceLeading fence ((c :: rest) ++ fence) = (c :: rest) ++ fence) as Hkeep.
  { apply replaceLeading_other. cbn [app fence stripPrefix].
    destruct (N.eqb_spec backtick c); [congruence | reflexivity]. }
  split.
  - rewrite cleanResponseText_fenced.
    rewrite (app_assoc fence jsonTag), replaceLeading_app.
    change (ws ++ (c :: rest) ++ fence) with (ws ++ c :: (rest ++ fence)).
    rewrite (skipWhiteSpace_app ws c (rest ++ fence) Hws Hc).
    change (c :: rest ++ fence) with ((c :: rest) ++ fence).
    rewrite Hkeep. apply replaceTrailingFence_app.
  - intros Hne. destruct Hws as [|u ws Hu Hws]; [congruence|].
    rewrite cleanResponseText_fenced.
    rewrite (replaceLeading_other (fence ++ jsonTag)).
    + rewrite replaceLeading_app.
      change ((u :: ws) ++ (c :: rest) ++ fence) with ((u :: ws) ++ c :: (rest ++ fence)).
      rewrite (skipWhiteSpace_app (u :: ws) c (rest ++ fence)); [|now constructor|exact Hc].
      apply (replaceTrailingFence_app (c :: rest)).
    + rewrite stripPrefix_app_l. cbn [app jsonTag stripPrefix].
      destruct (N.eqb_spec 106 u) as [<-|_]; [discriminate Hu | reflexivity].
Qed.

Lemma cleanResponseText_unwraps_fence_witness :
  cleanResponseText (Some (fence ++ jsonTag ++ [10%N] ++ ([123; 125]%N) ++ fence))
  = [123; 125]%N.
Proof.
  refine (proj1 (cleanResponseText_unwraps_fence [10%N] 123%N [125%N] _ _ _)).
  - repeat constructor.
  - reflexivity.
  - discriminate.
Defined.

(** The cleanup only ever removes: a missing or empty answer reads as "{}";
    an answer that does not start with ``` is passed through untouched; and
    any other answer keeps a contiguous part of itself, losing at the front
    the opening fence, an optional "json" and white space, and at the back
    nothing or a final ```. *)
Theorem cleanResponseText_only_removes responseText :
  (responseText = None \/ responseText = Some [] ->
     cleanResponseText responseText = emptyObject) /\
  (forall text, responseText = Some text -> text <> [] ->
     (startsWith fence text = false -> cleanResponseText responseText = text) /\
     exists front back,
       text = front ++ cleanResponseText responseText ++ back /\
       (back = [] \/ back = fence)).
Proof.
  split.
  - intros [-> | ->]; reflexivity.
  - intros text -> Hne. destruct text as [|c0 text0]; [congruence|].
    assert (forall t, cleanResponseText (Some (c0 :: t))
              = if startsWith fence (c0 :: t)
                then replaceTrailingFence
                       (replaceLeading fence (replaceLeading (fence ++ jsonTag) (c0 :: t)))
                else c0 :: t) as -> by reflexivity.
    set (text := c0 :: text0).
    destruct (startsWith fence text) eqn:Hstart.
    + split; [discriminate|].
      assert (forall p s, exists front, s = front ++ replaceLeading p s) as Hlead.
      { intros p s. unfold replaceLeading.
        destruct (stripPrefix p s) as [r|] eqn:Hr; [|now exists []].
        apply stripPrefix_Some in Hr. destruct (skipWhiteSpace_spec r) as (ws & Hws & _).
        exists (p ++ ws). rewrite <- app_assoc, <- Hws. exact Hr. }
      destruct (Hlead (fence ++ jsonTag) text) as (f1 & H1).
      destruct (Hlead fence (replaceLeading (fence ++ jsonTag) text)) as (f2 & H2).
      destruct (replaceTrailingFence_spec
                  (replaceLeading fence (replaceLeading (fence ++ jsonTag) text)))
        as [(body & Hb & ->) | [_ ->]].
      * exists (f1 ++ f2), fence. split; [|now right].
        rewrite <- app_assoc, <- Hb, <- H2. exact H1.
      * exists (f1 ++ f2), []. split; [|now left].
        rewrite app_nil_r, <- app_assoc, <- H2. exact H1.
    + split; [reflexivity|]. exists [], []. split; [|now left].
      now rewrite app_nil_r.
Qed.

Lemma split_without_separator sep s : ~ In sep s -> split sep s = [s].
Proof.
  induction s as [|c s IH]; intros Hin; [reflexivity|].
  cbn [split]. destruct (N.eqb_spec c sep) as [->|Hne].
  - exfalso. apply Hin. now left.
  - rewrite IH; [reflexivity|]. intros H. apply Hin. now right.
Qed.

Lemma split_at_separator sep header s :
  ~ In sep header -> split sep (header ++ sep :: s) = header :: split sep s.
Proof.
  induction header as [|c header IH]; intros Hin.
  - cbn [app split]. now rewrite N.eqb_refl.
  - cbn [app split]. destruct (N.eqb_spec c sep) as [->|Hne].
    + exfalso. apply Hin. now left.
    + rewrite IH; [reflexivity|]. intros H. apply Hin. now right.
Qed.

(** From a data URL whose header has no comma, [fileToGenerativePart] keeps
    exactly the payload after the first comma when the payload has no comma
    itself (as Base64 text never has), and the part up to its first comma
    otherwise; a string without any comma gives [undefined]. *)
Theorem base64Data_is_the_payload header payload :
  ~ In comma header ->
  (~ In comma payload -> base64Data (header ++ comma :: payload) = Some payload) /\
  (forall more, ~ In comma payload ->
     base64Data (header ++ comma :: payload ++ comma :: more) = Some payload) /\
  base64Data header = None.
Proof.
  intros Hh. unfold base64Data. split; [|split].
  - intros Hp. now rewrite split_at_separator, split_without_separator.
  - intros more Hp. now rewrite !split_at_separator.
  - now rewrite split_without_separator.
Qed.

Lemma base64Data_is_the_payload_witness :
  base64Data ([100; 97; 116; 97; 58; 59]%N ++ comma :: [81; 85; 74; 68]%N)
  = Some [81; 85; 74; 68]%N.
Proof.
  refine (proj1 (base64Data_is_the_payload [100; 97; 116; 97; 58; 59]%N
                   [81; 85; 74; 68]%N _) _).
  - vm_compute. intuition discriminate.
  - vm_compute. intuition discriminate.
Defined.
